(** * Atom-LiveView: ObservedKeyList and the render life cycle of AtomLiveView

    A shallow embedding of [lib/observed-key-list.js] and of the render
    state machine of [lib/atom-live-view.js], with the properties stated
    about them.

    Conventions of the embedding.
    - A JavaScript string is a [string]; each character stands for one code
      unit below 256.
    - A JavaScript value is a [Value]; objects live in a [Heap] and are
      named by their address, so that sharing and cycles are expressible.
      Numbers are the whole numbers that [String] prints digit by digit
      (those that [isSafeInteger] accepts); symbols and bigints are left
      out.
    - A call that may raise returns an [Outcome].
    - The [Set] part of an ObservedKeyList is a [gset string]; iteration
      order is never used by the source.
    - [MappedDisposable] (package mapped-disposable) and [atom.config] are
      collaborators outside the repository; they are modelled by what the
      source relies on: a keyed store of subscriptions, and a registry of
      live observers whose [observe] calls the handler once on
      registration. *)

From Stdlib Require Import ZArith Ascii DecimalString DecimalPos DecimalZ.
From stdpp Require Import gmap strings list fin_maps.

Set Warnings "-clear-no-such-hyp".

(** ** JavaScript strings *)

Module JsString.

(** The code units below 256 matched by [\s], which are also the ones
    removed by [String.prototype.trim]: TAB, LF, VT, FF, CR, SP, NBSP. *)
Definition is_space (c : ascii) : bool :=
  match nat_of_ascii c with
  | 9 | 10 | 11 | 12 | 13 | 32 | 160 => true
  | _ => false
  end.

Fixpoint trimStart (s : string) : string :=
  match s with
  | EmptyString => EmptyString
  | String c s' => if is_space c then trimStart s' else s
  end.

Fixpoint trimEnd (s : string) : string :=
  match s with
  | EmptyString => EmptyString
  | String c s' =>
      match trimEnd s' with
      | EmptyString => if is_space c then EmptyString else String c EmptyString
      | r => String c r
      end
  end.

(** [s.trim()] *)
Definition trim (s : string) : string := trimEnd (trimStart s).

(** [s.split(/\s+/)]: the pieces between maximal runs of white space.
    [in_ws] tells that the previous character belonged to a run that
    has already closed a piece.  The empty string gives one empty piece;
    a leading or a trailing run gives an empty first or last piece. *)
Fixpoint split_from (in_ws : bool) (s : string) : list string :=
  match s with
  | EmptyString => [EmptyString]
  | String c s' =>
      if is_space c then
        if in_ws then split_from true s'
        else EmptyString :: split_from true s'
      else
        match split_from false s' with
        | piece :: pieces => String c piece :: pieces
        | [] => [String c EmptyString]
        end
  end.

Definition split_whitespace (s : string) : list string := split_from false s.

(** A string without any white space. *)
Fixpoint no_space (s : string) : bool :=
  match s with
  | EmptyString => true
  | String c s' => negb (is_space c) && no_space s'
  end.

(** A string made of white space only. *)
Fixpoint blank (s : string) : bool :=
  match s with
  | EmptyString => true
  | String c s' => is_space c && blank s'
  end.

(** A key name: not empty, and free of white space. *)
Definition valid_key (a : string) : Prop := a ≠ "" ∧ no_space a = true.

End JsString.

(** ** JavaScript values *)

Inductive Value : Type :=
| VUndefined
| VNull
| VBoolean (b : bool)
| VNumber (z : Z)
| VString (s : string)
| VFunction (f : nat) (source : string)
| VObject (r : nat).

Global Instance Value_eq_dec : EqDecision Value.
Proof. solve_decision. Defined.

(** What the source asks of an object: whether [Symbol.iterator in o]
    holds, and then what [Array.from(o)] lists. *)
Inductive HeapObject : Type :=
| Iterable (elems : list Value)
| Plain.

Abbreviation Heap := (list HeapObject).

Inductive JsType : Type :=
| TUndefined | TObject | TBoolean | TNumber | TString | TFunction.

Global Instance JsType_eq_dec : EqDecision JsType.
Proof. solve_decision. Defined.

Definition typeof (v : Value) : JsType :=
  match v with
  | VUndefined => TUndefined
  | VNull => TObject
  | VBoolean _ => TBoolean
  | VNumber _ => TNumber
  | VString _ => TString
  | VFunction _ _ => TFunction
  | VObject _ => TObject
  end.

(** [!v] is [negb (truthy v)]. *)
Definition truthy (v : Value) : bool :=
  match v with
  | VUndefined | VNull => false
  | VBoolean b => b
  | VNumber z => negb (z =? 0)%Z
  | VString s => negb (bool_decide (s = EmptyString))
  | VFunction _ _ | VObject _ => true
  end.

(** [String(v)] for the values that reach it in [normaliseKeys], none of
    which is an object.  A number is written with all its digits, which
    is what [String] gives for the whole numbers that [isSafeInteger]
    accepts. *)
Definition ToString (v : Value) : string :=
  match v with
  | VUndefined => "undefined"
  | VNull => "null"
  | VBoolean true => "true"
  | VBoolean false => "false"
  | VNumber z => NilZero.string_of_int (Z.to_int z)
  | VString s => s
  | VFunction _ source => source
  | VObject _ => "[object Object]"
  end.

(** [Number.isSafeInteger(z)] *)
Definition isSafeInteger (z : Z) : bool := (Z.abs z <? 2 ^ 53)%Z.

(** A value that is not a number outside the safe whole numbers, whose
    string form has an exponent and is not what [ToString] gives. *)
Definition safe_number (v : Value) : bool :=
  match v with
  | VNumber z => isSafeInteger z
  | _ => true
  end.

Inductive Error : Type :=
| TypeError (message : string).

Inductive Outcome (A : Type) : Type :=
| Return (a : A)
| Throw (e : Error)
| OutOfFuel.
Arguments Return {A} a.
Arguments Throw {A} e.
Arguments OutOfFuel {A}.

Definition bind {A B : Type} (m : Outcome A) (k : A → Outcome B) : Outcome B :=
  match m with
  | Return a => k a
  | Throw e => Throw e
  | OutOfFuel => OutOfFuel
  end.

(** ** normaliseKeys *)

Module Normalise.
Import JsString.

Definition not_iterable : Error := TypeError "Object is not iterable".

(** The engine's error for [Symbol.iterator in null]. *)
Definition in_null : Error :=
  TypeError "Cannot use 'in' operator to search for 'Symbol(Symbol.iterator)' in null".

(** The [for(const value of input)] loop of [normaliseKeys]; [rec] is the
    recursive call [this.normaliseKeys(value, refs)], and [refs] is the
    shared [WeakSet], threaded through. *)
Fixpoint normaliseKeys_loop
    (rec : Value → gset nat → Outcome (list string * gset nat))
    (input : list Value) (refs : gset nat) (output : list string)
    : Outcome (list string * gset nat) :=
  match input with
  | [] => Return (output, refs)
  | value :: rest =>
      if negb (truthy value) then normaliseKeys_loop rec rest refs output
      else
        match typeof value, value with
        | TString, VString s =>
            normaliseKeys_loop rec rest refs
              (output ++ split_whitespace (trim s))
        | TObject, VObject r =>
            if decide (r ∈ refs) then normaliseKeys_loop rec rest refs output
            else
              match rec value ({[r]} ∪ refs) with
              | Return (sub, refs') =>
                  normaliseKeys_loop rec rest refs' (output ++ sub)
              | Throw e => Throw e
              | OutOfFuel => OutOfFuel
              end
        | _, _ => normaliseKeys_loop rec rest refs output
        end
  end.

Fixpoint normaliseKeys_fuel (fuel : nat) (h : Heap)
    (input : Value) (refs : gset nat) : Outcome (list string * gset nat) :=
  match fuel with
  | 0 => OutOfFuel
  | S fuel' =>
      let rec := normaliseKeys_fuel fuel' h in
      match typeof input with
      | TString => normaliseKeys_loop rec [input] refs []
      | TObject =>
          match input with
          | VObject r =>
              match h !! r with
              | Some (Iterable elems) =>
                  normaliseKeys_loop rec elems ({[r]} ∪ refs) []
              | _ => Throw not_iterable
              end
          | _ => Throw in_null
          end
      | _ => normaliseKeys_loop rec [VString (ToString input)] refs []
      end
  end.

(** [normaliseKeys(input)], with [refs] defaulting to a new [WeakSet].
    The recursion descends only into objects that are not yet in
    [refs], so its depth is bounded by the size of the heap. *)
Definition normaliseKeys (h : Heap) (input : Value) : Outcome (list string) :=
  bind (normaliseKeys_fuel (length h + 2) h input ∅)
       (λ '(output, _), Return output).

(** The objects of the heap that [refs] does not hold yet: what the
    recursion can still descend into. *)
Definition unvisited (h : Heap) (refs : gset nat) : nat :=
  size (set_seq 0 (length h) ∖ refs : gset nat).

(** The fuel that a call needs. *)
Definition fuel_needed (h : Heap) (input : Value) (refs : gset nat) : nat :=
  match input with
  | VObject r =>
      match h !! r with
      | Some (Iterable _) => unvisited h ({[r]} ∪ refs) + 2
      | _ => 1
      end
  | _ => 1
  end.

(** Every object held by [refs] is iterable. *)
Definition iter_refs (h : Heap) (refs : gset nat) : Prop :=
  ∀ r, r ∈ refs → ∃ elems, h !! r = Some (Iterable elems).

(** What is shown of a run of the loop over [elems] that started with
    [refs]: it ends, it raises nothing but [not_iterable], and when it
    returns, [refs] has grown to hold every object of [elems]. *)
Definition loop_ok (h : Heap) (elems : list Value) (refs : gset nat)
    (res : Outcome (list string * gset nat)) : Prop :=
  match res with
  | Return (_, refs') =>
      refs ⊆ refs'
      ∧ (iter_refs h refs →
         iter_refs h refs' ∧ ∀ r, VObject r ∈ elems → r ∈ refs')
  | Throw e => e = not_iterable
  | OutOfFuel => False
  end.

(** The same for a call on the object [r], which the caller has put
    into [refs] already. *)
Definition call_ok (h : Heap) (r : nat) (refs : gset nat)
    (res : Outcome (list string * gset nat)) : Prop :=
  match res with
  | Return (_, refs') =>
      refs ⊆ refs' ∧ (iter_refs h (refs ∖ {[r]}) → iter_refs h refs')
  | Throw e => e = not_iterable
  | OutOfFuel => False
  end.

(** The elements that the loop of [normaliseKeys] looks at. *)
Definition key_source (v : Value) : bool :=
  match typeof v with
  | TString | TObject => true
  | _ => false
  end.


(** The elements that the loop passes over: the falsy ones, and those
    that are neither strings nor objects. *)
Definition skipped (v : Value) : bool :=
  negb (truthy v) || negb (key_source v).

End Normalise.

(** ** ObservedKeyList *)

Module ObservedKeyList.
Import Normalise.

(** *** MappedDisposable: a [Map] from keys to groups of subscriptions.
    A subscription is named by the identity [atom.config.observe] gave
    it; disposing of it removes it from the host's live observers. *)
Record MappedDisposable : Type := {
  md_id : nat;
  disposed : bool;
  md_map : gmap string (list nat);
}.

Definition md_new (id : nat) : MappedDisposable :=
  {| md_id := id; disposed := false; md_map := ∅ |}.

(** [md.add(key, d)] *)
Definition md_add (key : string) (d : nat) (md : MappedDisposable)
    : MappedDisposable :=
  if disposed md then md
  else
    {| md_id := md_id md; disposed := false;
       md_map := match md_map md !! key with
                 | Some ds => <[key := ds ++ [d]]> (md_map md)
                 | None => <[key := [d]]> (md_map md)
                 end |}.

(** Every subscription held by the store, whatever its key. *)
Definition md_all (md : MappedDisposable) : list nat :=
  map_to_list (md_map md) ≫= snd.

(** Cancelling subscriptions [ds] at the host. *)
Definition cancel (ds : list nat) (observers : gmap nat string)
    : gmap nat string :=
  foldr (λ d obs, base.delete d obs) observers ds.

(** [md.dispose(key)] *)
Definition md_dispose_key (key : string) (md : MappedDisposable)
    (observers : gmap nat string) : MappedDisposable * gmap nat string :=
  if disposed md then (md, observers)
  else
    match md_map md !! key with
    | Some ds =>
        ({| md_id := md_id md; disposed := false;
            md_map := base.delete key (md_map md) |},
         cancel ds observers)
    | None => (md, observers)
    end.

(** [md.dispose()] *)
Definition md_dispose (md : MappedDisposable) (observers : gmap nat string)
    : MappedDisposable * gmap nat string :=
  if disposed md then (md, observers)
  else
    ({| md_id := md_id md; disposed := true; md_map := ∅ |},
     cancel (md_all md) observers).

(** *** The instance and what it touches *)

Record Invocation : Type := {
  callee : Value;
  arguments : list Value;
  this_value : nat;
}.

(** What running one deferred dispatch did. *)
Inductive Dispatch : Type :=
| Called (i : Invocation)
| Raised (e : Error).

Record World : Type := {
  (** the instance: its identity and its fields *)
  self : nat;
  keys : gset string;
  callback : Value;
  callbackQueued : bool;
  disposables : MappedDisposable;
  (** [atom.config]: the live subscriptions whose handler belongs to
      the instance, with the key each one observes *)
  observers : gmap nat string;
  (** supply of identities for new objects and subscriptions *)
  next_id : nat;
  (** [process.nextTick]: deferred dispatches of the instance that
      have not run yet *)
  ticks : nat;
  (** the dispatches that ran, most recent first *)
  log : list Dispatch;
}.

Definition set_keys (ks : gset string) (w : World) : World :=
  {| self := self w; keys := ks; callback := callback w;
     callbackQueued := callbackQueued w; disposables := disposables w;
     observers := observers w; next_id := next_id w; ticks := ticks w;
     log := log w |}.

Definition set_callback (v : Value) (w : World) : World :=
  {| self := self w; keys := keys w; callback := v;
     callbackQueued := callbackQueued w; disposables := disposables w;
     observers := observers w; next_id := next_id w; ticks := ticks w;
     log := log w |}.

Definition set_disposables (md : MappedDisposable)
    (obs : gmap nat string) (next : nat) (w : World) : World :=
  {| self := self w; keys := keys w; callback := callback w;
     callbackQueued := callbackQueued w; disposables := md;
     observers := obs; next_id := next; ticks := ticks w;
     log := log w |}.

Definition set_queue (queued : bool) (n : nat) (l : list Dispatch)
    (w : World) : World :=
  {| self := self w; keys := keys w; callback := callback w;
     callbackQueued := queued; disposables := disposables w;
     observers := observers w; next_id := next_id w; ticks := n;
     log := l |}.

(** The handler given to [atom.config.observe]:
    [if(this.callbackQueued || !this.callback) return;
     this.callbackQueued = true; process.nextTick(...)]. *)
Definition handler (w : World) : World :=
  if callbackQueued w || negb (truthy (callback w)) then w
  else set_queue true (S (ticks w)) (log w) w.

Definition not_a_function : Error :=
  TypeError "this.callback is not a function".

(** [this.callback()] *)
Definition call_callback (w : World) : Dispatch :=
  match typeof (callback w) with
  | TFunction =>
      Called {| callee := callback w; arguments := [];
                this_value := self w |}
  | _ => Raised not_a_function
  end.

(** The scheduler runs the oldest deferred dispatch, if there is one:
    [this.callbackQueued = false; this.callback();]. *)
Definition tick (w : World) : World :=
  match ticks w with
  | 0 => w
  | S n =>
      let w' := set_queue false n (log w) w in
      set_queue false n (call_callback w' :: log w) w'
  end.

(** [atom.config.observe(key, handler)]: the handler is called once
    with the present value, then registered; the result names the
    subscription. *)
Definition config_observe (key : string) (w : World) : nat * World :=
  let w' := handler w in
  (next_id w',
   set_disposables (disposables w') (<[next_id w' := key]> (observers w'))
     (S (next_id w')) w').

(** One turn of the loop of [add]. *)
Definition add_key (w : World) (key : string) : World :=
  if decide (key ∈ keys w) then w
  else
    let w1 := set_keys ({[key]} ∪ keys w) w in
    let '(d, w2) := config_observe key w1 in
    set_disposables (md_add key d (disposables w2)) (observers w2)
      (next_id w2) w2.

(** The rest parameter [...keys] is a new array, allocated behind the
    caller's heap. *)
Definition rest_array (h : Heap) (args : list Value) : Heap * Value :=
  (h ++ [Iterable args], VObject (length h)).

(** [add(...keys)]; the world comes back with the outcome, also when
    the call raises. *)
Definition add (h : Heap) (args : list Value) (w : World)
    : World * Outcome unit :=
  let '(h', keys) := rest_array h args in
  match normaliseKeys h' keys with
  | Return ks => (foldl add_key w ks, Return ())
  | Throw e => (w, Throw e)
  | OutOfFuel => (w, OutOfFuel)
  end.

(** One turn of the loop of [delete]. *)
Definition delete_key (w : World) (key : string) : World :=
  let w1 := set_keys (keys w ∖ {[key]}) w in
  let '(md, obs) := md_dispose_key key (disposables w1) (observers w1) in
  set_disposables md obs (next_id w1) w1.

(** [delete(...keys)] *)
Definition delete (h : Heap) (args : list Value) (w : World)
    : World * Outcome unit :=
  let '(h', keys) := rest_array h args in
  match normaliseKeys h' keys with
  | Return ks => (foldl delete_key w ks, Return ())
  | Throw e => (w, Throw e)
  | OutOfFuel => (w, OutOfFuel)
  end.

(** [clear()] *)
Definition clear (w : World) : World :=
  let w1 := set_keys ∅ w in
  let '(_, obs) := md_dispose (disposables w1) (observers w1) in
  set_disposables (md_new (next_id w1)) obs (S (next_id w1)) w1.

(** [observe], [unobserve] and [remove] are aliases. *)
Definition observe := add.
Definition unobserve := delete.
Definition remove := delete.

Definition not_a_callback : Error :=
  TypeError "Callback argument is not a function".

(** The instance right after [super()] and the two assignments of the
    constructor; [id] is its identity. *)
Definition fresh (id : nat) (cb : Value) : World :=
  {| self := id; keys := ∅; callback := cb; callbackQueued := false;
     disposables := md_new (S id); observers := ∅; next_id := S (S id);
     ticks := 0; log := [] |}.

(** [new ObservedKeyList(callback = null, ...keys)].  A missing argument
    is [VUndefined], which the default parameter turns into [null]. *)
Definition constructor (h : Heap) (id : nat) (callback_arg : Value)
    (keys_args : list Value) : Outcome World :=
  let cb := match callback_arg with VUndefined => VNull | v => v end in
  if negb (bool_decide (cb = VNull))
     && negb (bool_decide (typeof cb = TFunction))
  then Throw not_a_callback
  else
    match keys_args with
    | [] => Return (fresh id cb)
    | _ =>
        match add h keys_args (fresh id cb) with
        | (w', Return _) => Return w'
        | (_, Throw e) => Throw e
        | (_, OutOfFuel) => OutOfFuel
        end
    end.

(** [list.callback = v]: a plain writable data property. *)
Definition assign_callback (v : Value) (w : World) : World * Outcome unit :=
  (set_callback v w, Return ()).

(** The host changes the value stored at [key]: every live subscription
    on that key has its handler called. *)
Definition config_change (key : string) (w : World) : World :=
  Nat.iter (size (filter (λ kv, kv.2 = key) (observers w))) handler w.

(** What can happen to an instance during its life. *)
Inductive Event : Type :=
| EAdd (h : Heap) (args : list Value)
| EDelete (h : Heap) (args : list Value)
| EClear
| EAssign (v : Value)
| EChange (key : string)
| ETick.

Definition step (w : World) (e : Event) : World :=
  match e with
  | EAdd h args => (add h args w).1
  | EDelete h args => (delete h args w).1
  | EClear => clear w
  | EAssign v => (assign_callback v w).1
  | EChange key => config_change key w
  | ETick => tick w
  end.

Definition run (w : World) (es : list Event) : World := foldl step w es.

Inductive Reachable : World → Prop :=
| reach_new h id cb ks w :
    constructor h id cb ks = Return w → Reachable w
| reach_step w e : Reachable w → Reachable (step w e).

(** The subscriptions are in order: the store is in use, it holds for
    each key of the set exactly one subscription, these are the live
    observers, and identities handed out are below [next]. *)
Definition SubsOk (ks : gset string) (md : MappedDisposable)
    (obs : gmap nat string) (next : nat) : Prop :=
  disposed md = false
  ∧ (∀ k, k ∈ ks ↔ is_Some (md_map md !! k))
  ∧ (∀ k ds, md_map md !! k = Some ds → ∃ d, ds = [d] ∧ obs !! d = Some k)
  ∧ (∀ d k, obs !! d = Some k → md_map md !! k = Some [d])
  ∧ (∀ d, is_Some (obs !! d) → d < next)
  ∧ md_id md < next.

(** The flag [callbackQueued] tells whether a dispatch is waiting. *)
Definition QueueOk (w : World) : Prop :=
  ticks w = if callbackQueued w then 1 else 0.

Definition Inv (w : World) : Prop :=
  QueueOk w ∧ SubsOk (keys w) (disposables w) (observers w) (next_id w).

(** From [w] to [w'] nothing was dispatched, and the instance kept its
    identity and its callback. *)
Definition quiet (w w' : World) : Prop :=
  self w' = self w ∧ callback w' = callback w ∧ log w' = log w.

(** Two worlds that differ at most in the identity of the store and in
    the supply of identities. *)
Definition same_state (w1 w2 : World) : Prop :=
  self w1 = self w2 ∧ keys w1 = keys w2 ∧ callback w1 = callback w2
  ∧ callbackQueued w1 = callbackQueued w2
  ∧ disposed (disposables w1) = disposed (disposables w2)
  ∧ md_map (disposables w1) = md_map (disposables w2)
  ∧ observers w1 = observers w2 ∧ ticks w1 = ticks w2 ∧ log w1 = log w2.

End ObservedKeyList.

(** ** AtomLiveView: the render life cycle *)

Module AtomLiveView.

(** A pane of [atom.workspace.getVisiblePanes()]; items are named by
    their identity. *)
Record Pane : Type := {
  alive : bool;
  activeItem : option nat;
}.

(** What [isItemVisible] reads of an item. *)
Record Item : Type := {
  item_id : nat;
  element : bool;
}.

(** [isItemVisible(item)] of [lib/utils.js]; [None] is a missing item. *)
Definition isItemVisible (item : option Item) (visiblePanes : list Pane)
    : bool :=
  match item with
  | None => false
  | Some i =>
      if negb (element i) then false
      else
        existsb
          (λ pane, alive pane && bool_decide (activeItem pane = Some (item_id i)))
          visiblePanes
  end.

Record View : Type := {
  view_id : nat;
  renderState : string;
  (** every value assigned to [renderState], most recent first *)
  history : list string;
  (** [this.offsets] when it is an array *)
  offsets : option (list Z);
  scrollLeft : Z;
  scrollTop : Z;
  (** [this.emitter && !this.emitter.disposed] *)
  emitter : bool;
  (** the events handed to the emitter, most recent first *)
  emitted : list string;
  (** how many times [this.render()] has been called *)
  renders : nat;
  (** a call of [handleRender] is suspended at [await this.render()] *)
  awaiting : bool;
}.

Definition set_renderState (s : string) (v : View) : View :=
  {| view_id := view_id v; renderState := s; history := s :: history v;
     offsets := offsets v; scrollLeft := scrollLeft v;
     scrollTop := scrollTop v; emitter := emitter v;
     emitted := emitted v; renders := renders v; awaiting := awaiting v |}.

(** [this.emit(eventName)] *)
Definition emit (eventName : string) (v : View) : View :=
  if emitter v then
    {| view_id := view_id v; renderState := renderState v;
       history := history v; offsets := offsets v;
       scrollLeft := scrollLeft v; scrollTop := scrollTop v;
       emitter := emitter v; emitted := eventName :: emitted v;
       renders := renders v; awaiting := awaiting v |}
  else v.

(** [this.render()] is called and [handleRender] waits for it. *)
Definition call_render (v : View) : View :=
  {| view_id := view_id v; renderState := renderState v;
     history := history v; offsets := offsets v;
     scrollLeft := scrollLeft v; scrollTop := scrollTop v;
     emitter := emitter v; emitted := emitted v;
     renders := S (renders v); awaiting := true |}.

Definition stop_awaiting (v : View) : View :=
  {| view_id := view_id v; renderState := renderState v;
     history := history v; offsets := offsets v;
     scrollLeft := scrollLeft v; scrollTop := scrollTop v;
     emitter := emitter v; emitted := emitted v;
     renders := renders v; awaiting := false |}.

(** [restoreOffsets()]; a missing entry counts as 0. *)
Definition restoreOffsets (v : View) : View :=
  {| view_id := view_id v; renderState := renderState v;
     history := history v; offsets := None;
     scrollLeft := match offsets v with
                   | Some o => nth 0 o 0%Z
                   | None => scrollLeft v
                   end;
     scrollTop := match offsets v with
                  | Some o => nth 1 o 0%Z
                  | None => scrollTop v
                  end;
     emitter := emitter v; emitted := emitted v;
     renders := renders v; awaiting := awaiting v |}.

(** [new AtomLiveView(state)]: [renderState] is the prototype's value,
    the empty string. *)
Definition constructor (id : nat) (state_offsets : option (list Z)) : View :=
  {| view_id := id; renderState := ""; history := [];
     offsets := state_offsets; scrollLeft := 0; scrollTop := 0;
     emitter := true; emitted := []; renders := 0; awaiting := false |}.

(** [getVisible()]; the view's [element] is made by the constructor. *)
Definition getVisible (visiblePanes : list Pane) (v : View) : bool :=
  isItemVisible (Some {| item_id := view_id v; element := true |})
    visiblePanes.

(** [handleRender()] up to [await this.render()]. *)
Definition handleRender (visiblePanes : list Pane) (v : View) : View :=
  if bool_decide (renderState v = "rendering")
     || bool_decide (renderState v = "pending")
  then v
  else if getVisible visiblePanes v then
    call_render (emit "did-render-started" (set_renderState "rendering" v))
  else emit "did-queue-render" (set_renderState "pending" v).

(** The promise of [render()] settles: on fulfilment [handleRender]
    goes on after the [await]; on rejection it ends there. *)
Definition settle (fulfilled : bool) (v : View) : View :=
  if awaiting v then
    if fulfilled then
      restoreOffsets
        (emit "did-render-finish"
           (set_renderState "finished" (stop_awaiting v)))
    else stop_awaiting v
  else v.

(** The function given to [atom.workspace.observeActivePaneItem]. *)
Definition onActivePaneItem (item : option nat) (visiblePanes : list Pane)
    (v : View) : View :=
  if bool_decide (item = Some (view_id v))
     && bool_decide (renderState v = "pending")
  then handleRender visiblePanes (set_renderState "none" v)
  else v.

(** [destroy()], as far as the life cycle sees it. *)
Definition destroy (v : View) : View :=
  if emitter v then
    let v' := emit "did-destroy" v in
    {| view_id := view_id v'; renderState := renderState v';
       history := history v'; offsets := offsets v';
       scrollLeft := scrollLeft v'; scrollTop := scrollTop v';
       emitter := false; emitted := emitted v';
       renders := renders v'; awaiting := awaiting v' |}
  else v.

Inductive Event : Type :=
| ERender (visiblePanes : list Pane)
| ESettle (fulfilled : bool)
| EActive (item : option nat) (visiblePanes : list Pane)
| EDestroy.

Definition step (v : View) (e : Event) : View :=
  match e with
  | ERender panes => handleRender panes v
  | ESettle fulfilled => settle fulfilled v
  | EActive item panes => onActivePaneItem item panes v
  | EDestroy => destroy v
  end.

Definition run (v : View) (es : list Event) : View := foldl step v es.

Definition render_states : list string :=
  ["none"; "rendering"; "pending"; "finished"].

(** From [v0] to [v] nothing was rendered: [render()] was not called,
    the offsets and the scroll position are as they were, and no render
    has been announced as started or as finished. *)
Definition no_render (v0 v : View) : Prop :=
  renders v = renders v0 ∧ offsets v = offsets v0
  ∧ scrollLeft v = scrollLeft v0 ∧ scrollTop v = scrollTop v0
  ∧ (∃ l, emitted v = (l ++ emitted v0)
          ∧ ("did-render-started" ∉ l) ∧ ("did-render-finish" ∉ l)).

(** The view is stuck: it says it is rendering, and no call of
    [handleRender] is waiting for a render to end. *)
Definition wedged (v : View) : Prop :=
  renderState v = "rendering" ∧ awaiting v = false.

(** How many times the event [name] is in a list of emitted events. *)
Definition occurrences (name : string) (events : list string) : nat :=
  length (filter (λ e, e = name) events).

(** The renders that have been announced and not announced as
    finished. *)
Definition unfinished (v : View) : nat :=
  occurrences "did-render-started" (emitted v)
  - occurrences "did-render-finish" (emitted v).

(** What the events of a view keep: no more finished renders than
    started ones, at most one more started; on a view that still emits,
    one more while a render is awaited, and only in the state
    "rendering". *)
Definition paired (v : View) : Prop :=
  occurrences "did-render-finish" (emitted v)
  ≤ occurrences "did-render-started" (emitted v)
  ∧ unfinished v ≤ 1
  ∧ (emitter v = true →
     (awaiting v = true → unfinished v = 1)
     ∧ (unfinished v = 1 → renderState v = "rendering")).

End AtomLiveView.

(** ** More string operations *)

Module JsText.

(** [s.startsWith(p)] *)
Fixpoint startsWith (p s : string) : bool :=
  match p, s with
  | EmptyString, _ => true
  | String a p', String b s' => bool_decide (a = b) && startsWith p' s'
  | String _ _, EmptyString => false
  end.

(** [s.substring(n)] *)
Fixpoint substring_from (n : nat) (s : string) : string :=
  match n, s with
  | 0, _ => s
  | S n', String _ s' => substring_from n' s'
  | S _, EmptyString => EmptyString
  end.

(** [s.split(sep)] for a separator that is not empty: the pieces between
    the occurrences of [sep], found from left to right.  [skip] counts
    the characters of an occurrence that are still to be passed. *)
Fixpoint split_go (sep : string) (skip : nat) (s : string) : list string :=
  match s with
  | EmptyString => [EmptyString]
  | String c s' =>
      match skip with
      | S k => split_go sep k s'
      | 0 =>
          if startsWith sep s
          then EmptyString :: split_go sep (String.length sep - 1) s'
          else
            match split_go sep 0 s' with
            | piece :: pieces => String c piece :: pieces
            | [] => [String c EmptyString]
            end
      end
  end.

Definition split (sep s : string) : list string := split_go sep 0 s.

(** [pieces.join(sep)] *)
Fixpoint join (sep : string) (pieces : list string) : string :=
  match pieces with
  | [] => EmptyString
  | [piece] => piece
  | piece :: rest => piece +:+ sep +:+ join sep rest
  end.

Definition is_upper (c : ascii) : bool :=
  (65 <=? nat_of_ascii c) && (nat_of_ascii c <=? 90).

Definition is_lower (c : ascii) : bool :=
  (97 <=? nat_of_ascii c) && (nat_of_ascii c <=? 122).

(** [c.toLowerCase()] for a code unit below 256: the letters A to Z, and
    the capital letters of Latin-1 (192 to 222 but for the sign 215). *)
Definition lower (c : ascii) : ascii :=
  let n := nat_of_ascii c in
  if is_upper c
     || ((192 <=? n) && (n <=? 222) && negb (n =? 215))
  then ascii_of_nat (n + 32)
  else c.

(** [s.toLowerCase()] *)
Fixpoint toLowerCase (s : string) : string :=
  match s with
  | EmptyString => EmptyString
  | String c s' => String (lower c) (toLowerCase s')
  end.

(** [s.replace(/([a-z]+)([A-Z])/g, (_, a, B) => a + "-" + B)]: a match is
    a run of small letters with the capital that follows it, and the
    search goes on behind that capital; so a hyphen goes in front of
    every capital that comes right after a small letter.
    [after_lower] tells that the character before was a small letter. *)
Fixpoint hyphenate (after_lower : bool) (s : string) : string :=
  match s with
  | EmptyString => EmptyString
  | String c s' =>
      if is_upper c && after_lower
      then String "-" (String c (hyphenate false s'))
      else String c (hyphenate (is_lower c) s')
  end.

(** Whether [b] matches the pattern character [a] under the flag [i],
    for a pattern character from the ASCII range. *)
Definition same_letter (a b : ascii) : bool :=
  bool_decide (a = b)
  || (is_upper a && bool_decide (lower a = b))
  || (is_upper b && bool_decide (a = lower b)).

(** [s.replace(/^p/i, "")] for a pattern [p] of plain characters. *)
Fixpoint strip_prefix_ci_go (p s : string) : option string :=
  match p, s with
  | EmptyString, _ => Some s
  | String a p', String b s' =>
      if same_letter a b then strip_prefix_ci_go p' s' else None
  | String _ _, EmptyString => None
  end.

Definition strip_prefix_ci (p s : string) : string :=
  match strip_prefix_ci_go p s with
  | Some rest => rest
  | None => s
  end.

(** No per cent sign in the string. *)
Fixpoint no_percent (s : string) : bool :=
  match s with
  | EmptyString => true
  | String c s' => negb (bool_decide (c = "%"%char)) && no_percent s'
  end.

(** No capital letter from A to Z in the string. *)
Fixpoint no_upper (s : string) : bool :=
  match s with
  | EmptyString => true
  | String c s' => negb (is_upper c) && no_upper s'
  end.

End JsText.

(** ** [lib/utils.js] *)

Module Utils.

(** A value that is no object.  For such a value [ToString] is what
    [String(v)], a template literal and [+] with a string make of it. *)
Definition primitive (v : Value) : bool :=
  match v with
  | VObject _ => false
  | _ => true
  end.

(** What the source reads of a [TextEditor]; Atom numbers its editors,
    so [editor.id] is a whole number. *)
Record TextEditor : Type := {
  editor_id : Z;
  editor_title : string;
  editor_path : Value;
}.

(** [editorForId(id)]; [editors] is [atom.workspace.getTextEditors()]. *)
Fixpoint editorForId (id : Value) (editors : list TextEditor)
    : option TextEditor :=
  match editors with
  | [] => None
  | editor :: rest =>
      if bool_decide (ToString id = ToString (VNumber (editor_id editor)))
      then Some editor
      else editorForId id rest
  end.







End Utils.

(** ** AtomLiveView: source, title, URI and session state *)

Module LiveViewSource.
Import JsText Utils.

(** [static get protocolName()] and [static get iconName()] *)
Definition protocolName : string := "atom-live-view".
Definition iconName : string := "device-desktop".

(** [static get slug()], for a class of the given name. *)
Definition slug (name : string) : string := toLowerCase (hyphenate false name).

(** The fields that tell where the content of a view comes from.  [file]
    holds the path of [this.file] when there is one. *)
Record Source : Type := {
  file : option Value;
  editor : option TextEditor;
  editorId : Value;
  filePath : Value;
  cachedTitle : Value;
}.

(** [getPath()] *)
Definition getPath (src : Source) : Value :=
  match file src with
  | Some path => path
  | None =>
      match editor src with
      | Some e => editor_path e
      | None => filePath src
      end
  end.

(** [getTitle()]; [basename] is the function of Node's [path], which
    raises a [TypeError] for a path that is not a string: no title is
    given then. *)
Definition getTitle (basename : string → string) (src : Source)
    : option Value :=
  if match file src with Some _ => truthy (getPath src) | None => false end
  then
    match getPath src with
    | VString path => Some (VString (basename path +:+ " preview"))
    | _ => None
    end
  else
    match editor src with
    | Some e => Some (VString (editor_title e +:+ " preview"))
    | None =>
        Some (if truthy (cachedTitle src) then cachedTitle src
              else VString "Preview")
    end.

(** [getURI()] *)
Definition getURI (src : Source) : string :=
  match file src with
  | Some _ => protocolName +:+ "://source:file@" +:+ ToString (getPath src)
  | None => protocolName +:+ "://source:editor@" +:+ ToString (editorId src)
  end.

(** [static get uriForEditor()] *)
Definition uriForEditor (e : TextEditor) : string :=
  protocolName +:+ "://source:editor@" +:+ ToString (VNumber (editor_id e)).

(** The state object given to the constructor; a missing field is
    [VUndefined], and [state_offsets] is there when [offsets] is an
    array. *)
Record State : Type := {
  state_editorId : Value;
  state_filePath : Value;
  state_offsets : option (list Z);
  state_title : Value;
}.

(** [existsSync(path) && statSync(path).isFile()]: [is_file] tells of a
    string whether it names a file that exists, and [existsSync] gives
    [false] for a value that is no path. *)
Definition isFile (is_file : string → bool) (path : Value) : bool :=
  match path with
  | VString path => is_file path
  | _ => false
  end.

(** [static get createView()]: the state of the view that is made, or
    nothing. *)
Definition createView (is_file : string → bool) (state : State)
    : option State :=
  if truthy (state_editorId state)
     || (truthy (state_filePath state)
         && isFile is_file (state_filePath state))
  then Some state
  else None.

(** [static get opener()].  [decodeURI] gives nothing when the built-in
    raises. *)
Definition opener (decodeURI : string → option string)
    (is_file : string → bool) (uri : string) : option State :=
  match split "://" uri with
  | [] => None
  | protocol :: path =>
      if negb (bool_decide (protocol = protocolName)) then None
      else
        match decodeURI (join "://" path) with
        | None => None
        | Some path =>
            if startsWith "source:editor@" path
            then createView is_file
                   {| state_editorId := VString (substring_from 14 path);
                      state_filePath := VUndefined;
                      state_offsets := None;
                      state_title := VUndefined |}
            else createView is_file
                   {| state_editorId := VUndefined;
                      state_filePath :=
                        VString (strip_prefix_ci "source:file@" path);
                      state_offsets := None;
                      state_title := VUndefined |}
        end
  end.

(** What [serialize()] returns: the name of the deserializer, and the
    fields that the constructor reads back. *)
Record Serialized : Type := {
  deserializer : string;
  params : State;
}.

(** [serialize()]; [name] is [this.constructor.name].  Nothing is
    returned when [getTitle()] raises. *)
Definition serialize (name : string) (basename : string → string)
    (v : AtomLiveView.View) (src : Source) : option Serialized :=
  match getTitle basename src with
  | Some title =>
      Some {| deserializer := name;
              params :=
                {| state_editorId := editorId src;
                   state_filePath := getPath src;
                   state_offsets :=
                     Some [AtomLiveView.scrollLeft v;
                           AtomLiveView.scrollTop v];
                   state_title := title |} |}
  | None => None
  end.

(** The assignments of the constructor that concern the source: no file
    and no editor yet. *)
Definition source_of_state (state : State) : Source :=
  {| file := None; editor := None;
     editorId := state_editorId state;
     filePath := state_filePath state;
     cachedTitle := state_title state |}.

(** [static get deserialize()]: [params => new this(params)]; [id] is
    the identity of the new view. *)
Definition deserialize (id : nat) (saved : Serialized)
    : AtomLiveView.View * Source :=
  (AtomLiveView.constructor id (state_offsets (params saved)),
   source_of_state (params saved)).

(** [watchFile(path)].  [new_File path] is the path that the file made
    by [new File(path)] reports, and [panes] are the visible panes at
    the time. *)
Definition watchFile (new_File : Value → Value)
    (panes : list AtomLiveView.Pane) (path : Value)
    (view : AtomLiveView.View * Source) : AtomLiveView.View * Source :=
  (AtomLiveView.handleRender panes
     (AtomLiveView.emit "did-change-title" view.1),
   {| file := Some (new_File path); editor := editor view.2;
      editorId := editorId view.2; filePath := filePath view.2;
      cachedTitle := cachedTitle view.2 |}).

(** [this.editor = editorForId(this.editorId)] *)
Definition set_editor (e : option TextEditor) (src : Source) : Source :=
  {| file := file src; editor := e; editorId := editorId src;
     filePath := filePath src; cachedTitle := cachedTitle src |}.

(** What the constructor does once the packages are loaded (the
    function given to [waitToLoad().then]), but for the subscriptions:
    the view takes the editor of its id, or else goes to its file. *)
Definition loaded (new_File : Value → Value) (editors : list TextEditor)
    (panes : list AtomLiveView.Pane) (view : AtomLiveView.View * Source)
    : AtomLiveView.View * Source :=
  if truthy (editorId view.2) then
    match editorForId (editorId view.2) editors with
    | Some e =>
        (AtomLiveView.handleRender panes
           (AtomLiveView.emit "did-change-title" view.1),
         set_editor (Some e) view.2)
    | None =>
        watchFile new_File panes (filePath view.2)
          (view.1, set_editor None view.2)
    end
  else watchFile new_File panes (filePath view.2) view.

(** The handler given to [this.editor.onDidDestroy]. *)
Definition onEditorDestroyed (new_File : Value → Value)
    (panes : list AtomLiveView.Pane) (view : AtomLiveView.View * Source)
    : AtomLiveView.View * Source :=
  watchFile new_File panes (getPath view.2) view.

End LiveViewSource.

(** ** Worlds and heaps used as examples *)

Module Examples.
Import ObservedKeyList.

Definition fn : Value := VFunction 0 "() => ++calls".

(** [new ObservedKeyList(fn)] *)
Definition silent : World := fresh 0 fn.

(** [new ObservedKeyList(fn, 'x')]: observing [x] has called the handler,
    so a dispatch is waiting. *)
Definition observing : World := run silent [EAdd [] [VString "x"]].

(** The same once the dispatch has run. *)
Definition idle : World := run observing [ETick].

(** A dispatch is waiting and the callback is taken away. *)
Definition orphaned : World := run observing [EAssign VNull].

(** [new ObservedKeyList()] *)
Definition mute : World := fresh 0 VNull.

(** A heap with the plain object [{foo: 'bar'}] at address 0 and the
    array [['a', 'b']] at address 1. *)
Definition heap : Heap := [Plain; Iterable [VString "a"; VString "b"]].

End Examples.

Module ViewExamples.
Import AtomLiveView.

(** Panes that show another item, and panes of which one shows the
    view 3. *)
Definition hidden : list Pane := [ {| alive := true; activeItem := Some 9 |} ].
Definition shown : list Pane :=
  [ {| alive := true; activeItem := Some 9 |};
    {| alive := true; activeItem := Some 3 |} ].

(** A view restored with the offsets [[5, 7]]. *)
Definition view : View := constructor 3 (Some [5; 7]%Z).

(** The view while its first render is under way. *)
Definition rendering : View := handleRender shown view.

End ViewExamples.

Module SourceExamples.
Import JsText Utils LiveViewSource.

(** A stand-in for the built-in [decodeURI] that knows the strings
    without escape sequences, which it gives back as they are. *)
Definition decodeURI_plain (s : string) : option string :=
  if no_percent s then Some s else None.

(** The files that exist. *)
Definition is_file (path : string) : bool := bool_decide (path = "/notes/a.md").

Definition an_editor : TextEditor :=
  {| editor_id := 12; editor_title := "a.md";
     editor_path := VString "/notes/a.md" |}.

(** A view of the editor 12, and a view of the file [/notes/a.md]. *)
Definition of_editor : Source :=
  {| file := None; editor := Some an_editor; editorId := VNumber 12;
     filePath := VUndefined; cachedTitle := VUndefined |}.

Definition of_file : Source :=
  {| file := Some (VString "/notes/a.md"); editor := None;
     editorId := VUndefined; filePath := VString "/notes/a.md";
     cachedTitle := VUndefined |}.

End SourceExamples.

(** * Properties *)

(** ** White space, [trim] and [split] *)

Module StringFacts.
Import JsString.

Lemma append_nil_l (t : string) : "" +:+ t = t.
Proof. reflexivity. Qed.

Lemma append_cons (c : ascii) (s t : string) :
  String c s +:+ t = String c (s +:+ t).
Proof. reflexivity. Qed.

(** Unfold appends on strings whose head is known, then compute. *)
Ltac str_simpl := rewrite ?append_nil_l, ?append_cons; simpl.

Lemma append_nil_r (s : string) : s +:+ "" = s.
Proof. induction s as [|c s IH]; str_simpl; [done | by rewrite IH]. Qed.

Lemma append_assoc (s t u : string) : (s +:+ t) +:+ u = s +:+ (t +:+ u).
Proof. induction s as [|c s IH]; str_simpl; [done | by rewrite IH]. Qed.

Lemma append_not_empty_r (s t : string) : t ≠ "" → s +:+ t ≠ "".
Proof. destruct s; str_simpl; [done | discriminate]. Qed.

Lemma trimStart_blank (w s : string) :
  blank w = true → trimStart (w +:+ s) = trimStart s.
Proof.
  induction w as [|c w IH]; str_simpl; [done |].
  intros [Hc Hw]%andb_prop. rewrite Hc. auto.
Qed.

Lemma trimStart_no_space (a s : string) :
  a ≠ "" → no_space a = true → trimStart (a +:+ s) = a +:+ s.
Proof.
  destruct a as [|c a]; [done |]. str_simpl.
  intros _ [Hc _]%andb_prop. by destruct (is_space c).
Qed.

Lemma trimEnd_blank (w : string) : blank w = true → trimEnd w = "".
Proof.
  induction w as [|c w IH]; str_simpl; [done |].
  intros [Hc Hw]%andb_prop. by rewrite IH, Hc.
Qed.

Lemma trimEnd_app_blank (s w : string) :
  blank w = true → trimEnd (s +:+ w) = trimEnd s.
Proof.
  intros Hw. induction s as [|c s IH]; str_simpl.
  - by apply trimEnd_blank.
  - by rewrite IH.
Qed.

Lemma trimEnd_no_space (b : string) : no_space b = true → trimEnd b = b.
Proof.
  induction b as [|c b IH]; str_simpl; [done |].
  intros [Hc Hb]%andb_prop. rewrite IH by done.
  destruct b; [| done]. by destruct (is_space c).
Qed.

Lemma trimEnd_app_no_space (s b : string) :
  b ≠ "" → no_space b = true → trimEnd (s +:+ b) = s +:+ b.
Proof.
  intros Hne Hb. induction s as [|c s IH]; str_simpl.
  - by apply trimEnd_no_space.
  - rewrite IH. pose proof (append_not_empty_r s b Hne).
    by destruct (s +:+ b).
Qed.

Lemma split_from_not_nil (in_ws : bool) (s : string) : split_from in_ws s ≠ [].
Proof.
  revert in_ws. induction s as [|c s IH]; intros in_ws; str_simpl; [done |].
  destruct (is_space c).
  - destruct in_ws; [apply IH | done].
  - by destruct (split_from false s).
Qed.

Lemma split_from_true_blank (w s : string) :
  blank w = true → split_from true (w +:+ s) = split_from true s.
Proof.
  induction w as [|c w IH]; str_simpl; [done |].
  intros [Hc Hw]%andb_prop. rewrite Hc. auto.
Qed.

Lemma split_from_false_blank (w s : string) :
  w ≠ "" → blank w = true →
  split_from false (w +:+ s) = "" :: split_from true s.
Proof.
  destruct w as [|c w]; [done |]. str_simpl.
  intros _ [Hc Hw]%andb_prop. rewrite Hc.
  by rewrite split_from_true_blank.
Qed.

Lemma split_from_true_no_space (a s : string) :
  a ≠ "" → no_space a = true →
  split_from true (a +:+ s) = split_from false (a +:+ s).
Proof.
  destruct a as [|c a]; [done |]. str_simpl.
  intros _ [Hc _]%andb_prop. by destruct (is_space c).
Qed.

Lemma split_from_false_no_space (a s : string) :
  no_space a = true →
  split_from false (a +:+ s)
  = match split_from false s with
    | piece :: pieces => (a +:+ piece) :: pieces
    | [] => [a]
    end.
Proof.
  induction a as [|c a IH]; str_simpl.
  - intros _. pose proof (split_from_not_nil false s).
    by destruct (split_from false s).
  - intros [Hc Ha]%andb_prop. rewrite IH by done.
    destruct (is_space c); [done |].
    by destruct (split_from false s).
Qed.

Lemma trimStart_key (a : string) : no_space a = true → trimStart a = a.
Proof.
  destruct a as [|c a]; [done |]. str_simpl.
  intros [Hc _]%andb_prop. by destruct (is_space c).
Qed.

Lemma split_from_key (a : string) :
  no_space a = true → split_from false a = [a].
Proof.
  intros Ha. pose proof (split_from_false_no_space a "" Ha) as H.
  rewrite append_nil_r in H. simpl in H. by rewrite append_nil_r in H.
Qed.

Lemma split_key (a : string) : valid_key a → split_whitespace (trim a) = [a].
Proof.
  intros [Hne Ha]. unfold split_whitespace, trim.
  rewrite trimStart_key, trimEnd_no_space by done.
  by apply split_from_key.
Qed.

(** Two key names, with any white space around them and at least one
    white-space character between them, split into the two names. *)
Lemma split_two_keys (a b w1 w2 w3 : string) :
  valid_key a → valid_key b →
  blank w1 = true → blank w2 = true → w2 ≠ "" → blank w3 = true →
  split_whitespace (trim (w1 +:+ a +:+ w2 +:+ b +:+ w3)) = [a; b].
Proof.
  intros [Hna Ha] [Hnb Hb] H1 H2 Hn2 H3. unfold split_whitespace, trim.
  rewrite trimStart_blank, trimStart_no_space by done.
  replace (a +:+ w2 +:+ b +:+ w3) with (((a +:+ w2) +:+ b) +:+ w3)
    by by rewrite !append_assoc.
  rewrite trimEnd_app_blank, trimEnd_app_no_space by done.
  rewrite append_assoc, split_from_false_no_space by done.
  rewrite split_from_false_blank by done.
  pose proof (split_from_true_no_space b "" Hnb Hb) as Ht.
  rewrite !append_nil_r in Ht. rewrite Ht, split_from_key by done.
  by rewrite append_nil_r.
Qed.

Lemma split_spaced_keys (a b : string) :
  valid_key a → valid_key b →
  split_whitespace (trim (a +:+ " " +:+ b)) = [a; b]
  ∧ split_whitespace (trim (" " +:+ a +:+ "  " +:+ b +:+ " ")) = [a; b].
Proof.
  intros Ha Hb. split.
  - pose proof (split_two_keys a b "" " " "" Ha Hb) as H.
    rewrite append_nil_l, append_nil_r in H. by apply H.
  - by apply split_two_keys.
Qed.

Lemma split_blank (w : string) :
  blank w = true → split_whitespace (trim w) = [""].
Proof.
  intros Hw. unfold split_whitespace, trim.
  rewrite <- (append_nil_r w), trimStart_blank by done. done.
Qed.

End StringFacts.

(** ** [normaliseKeys] *)

Module NormaliseFacts.
Import JsString Normalise StringFacts.

Lemma normaliseKeys_fuel_S (n : nat) (h : Heap) (input : Value)
    (refs : gset nat) :
  normaliseKeys_fuel (S n) h input refs
  = match typeof input with
    | TString => normaliseKeys_loop (normaliseKeys_fuel n h) [input] refs []
    | TObject =>
        match input with
        | VObject r =>
            match h !! r with
            | Some (Iterable elems) =>
                normaliseKeys_loop (normaliseKeys_fuel n h) elems
                  ({[r]} ∪ refs) []
            | _ => Throw not_iterable
            end
        | _ => Throw in_null
        end
    | _ =>
        normaliseKeys_loop (normaliseKeys_fuel n h)
          [VString (ToString input)] refs []
    end.
Proof. reflexivity. Qed.

Lemma unvisited_le_length (h : Heap) (refs : gset nat) :
  unvisited h refs ≤ length h.
Proof.
  unfold unvisited.
  rewrite <- (size_set_seq (C := gset nat) 0 (length h)) at 2.
  apply subseteq_size. set_solver.
Qed.

Lemma unvisited_mono (h : Heap) (refs refs' : gset nat) :
  refs ⊆ refs' → unvisited h refs' ≤ unvisited h refs.
Proof. intros H. unfold unvisited. apply subseteq_size. set_solver. Qed.

Lemma unvisited_insert (h : Heap) (r : nat) (refs : gset nat) :
  r < length h → r ∉ refs →
  unvisited h ({[r]} ∪ refs) < unvisited h refs.
Proof.
  intros Hr Hnot. unfold unvisited. apply subset_size.
  apply strict_spec_alt. split; [set_solver |].
  intros Heq. assert (r ∈ (set_seq 0 (length h) ∖ refs : gset nat)) as Hin.
  { apply elem_of_difference. split; [| done].
    apply elem_of_set_seq. lia. }
  rewrite <- Heq in Hin. set_solver.
Qed.

Lemma fuel_needed_pos (h : Heap) (input : Value) (refs : gset nat) :
  1 ≤ fuel_needed h input refs.
Proof.
  unfold fuel_needed. destruct input; try lia.
  destruct (h !! r) as [[elems|]|]; lia.
Qed.

Lemma loop_ok_weaken (h : Heap) (elems0 elems1 : list Value)
    (refs0 refs1 : gset nat) (res : Outcome (list string * gset nat)) :
  refs0 ⊆ refs1 →
  (iter_refs h refs0 → iter_refs h refs1) →
  (∀ r, VObject r ∈ elems0 → VObject r ∈ elems1 ∨ r ∈ refs1) →
  loop_ok h elems1 refs1 res → loop_ok h elems0 refs0 res.
Proof.
  intros Hsub Hiter Helems. destruct res as [[out refs']| |]; simpl; try done.
  intros [Hsub' Hres]. split; [set_solver |].
  intros H0. destruct (Hres (Hiter H0)) as [Hi Hall]. split; [done |].
  intros r Hr. destruct (Helems r Hr) as [?|?]; [by apply Hall | set_solver].
Qed.

Section loop.
Variables (n : nat) (h : Heap).
Hypothesis call_sound : ∀ r refs,
  fuel_needed h (VObject r) refs ≤ n →
  call_ok h r refs (normaliseKeys_fuel n h (VObject r) refs).

Lemma loop_sound (elems : list Value) :
  ∀ refs out, unvisited h refs + 1 ≤ n →
  loop_ok h elems refs
    (normaliseKeys_loop (normaliseKeys_fuel n h) elems refs out).
Proof.
  induction elems as [|v rest IH]; intros refs out Hn.
  { simpl. split; [done |]. intros Hi. split; [done |].
    intros r Hr. by apply elem_of_nil in Hr. }
  assert (∀ out', (∀ r, v ≠ VObject r) →
    loop_ok h (v :: rest) refs
      (normaliseKeys_loop (normaliseKeys_fuel n h) rest refs out')) as Hskip.
  { intros out' Hv. eapply loop_ok_weaken; [done | done | | by apply IH].
    intros r [Hr|Hr]%elem_of_cons; [by destruct (Hv r) | by left]. }
  destruct v as [| |b|z|s|f src|r]; simpl;
    try (apply Hskip; discriminate).
  - destruct b; apply Hskip; discriminate.
  - destruct (negb (z =? 0)%Z); apply Hskip; discriminate.
  - destruct (negb (bool_decide (s = ""))); apply Hskip; discriminate.
  - destruct (decide (r ∈ refs)) as [Hin|Hnot].
    + eapply loop_ok_weaken; [done | done | | by apply IH].
      intros r' [Hr|Hr]%elem_of_cons; [| by left].
      right. by simplify_eq.
    + assert (fuel_needed h (VObject r) ({[r]} ∪ refs) ≤ n) as Hfuel.
      { unfold fuel_needed. destruct (h !! r) as [[elems|]|] eqn:Hl; try lia.
        apply lookup_lt_Some in Hl.
        pose proof (unvisited_insert h r refs Hl Hnot).
        pose proof (unvisited_mono h ({[r]} ∪ refs) ({[r]} ∪ ({[r]} ∪ refs))).
        assert (unvisited h ({[r]} ∪ ({[r]} ∪ refs))
                ≤ unvisited h ({[r]} ∪ refs)) by (apply H0; set_solver).
        lia. }
      pose proof (call_sound r _ Hfuel) as Hcall.
      destruct (normaliseKeys_fuel n h (VObject r) ({[r]} ∪ refs))
        as [[sub refs'']| |]; simpl in Hcall; try done.
      destruct Hcall as [Hsub Hiter].
      eapply loop_ok_weaken; [| | | apply (IH refs'' (out ++ sub))].
      * set_solver.
      * intros Hi. apply Hiter. intros r' Hr'. apply Hi. set_solver.
      * intros r' [Hr|Hr]%elem_of_cons; [| by left].
        right. simplify_eq. set_solver.
      * pose proof (unvisited_mono h refs refs''). 
        assert (unvisited h refs'' ≤ unvisited h refs) by (apply H; set_solver).
        lia.
Qed.

End loop.

(** A call on an object ends when it is given the fuel it needs. *)
Lemma call_sound (h : Heap) (n : nat) :
  ∀ r refs, fuel_needed h (VObject r) refs ≤ n →
  call_ok h r refs (normaliseKeys_fuel n h (VObject r) refs).
Proof.
  induction n as [|n IH]; intros r refs Hn.
  { pose proof (fuel_needed_pos h (VObject r) refs). lia. }
  rewrite normaliseKeys_fuel_S. simpl. unfold fuel_needed in Hn.
  destruct (h !! r) as [[elems|]|] eqn:Hl; simpl; try done.
  pose proof (loop_sound n h IH elems ({[r]} ∪ refs) []) as Hloop.
  destruct (normaliseKeys_loop (normaliseKeys_fuel n h) elems
              ({[r]} ∪ refs) []) as [[out refs']| |]; simpl in *.
  - destruct Hloop as [Hsub Hres]; [lia |]. split; [set_solver |].
    intros Hi. apply Hres. intros r' [Hr'|Hr']%elem_of_union.
    + apply elem_of_singleton in Hr'. subst. eauto.
    + destruct (decide (r' = r)) as [->|Hne]; [eauto |].
      apply Hi. set_solver.
  - apply Hloop. lia.
  - apply Hloop. lia.
Qed.

(** [normaliseKeys] is total: the fuel it starts with is never used up. *)
Lemma normaliseKeys_total (h : Heap) (input : Value) :
  normaliseKeys h input ≠ OutOfFuel.
Proof.
  unfold normaliseKeys.
  replace (length h + 2) with (S (length h + 1)) by lia.
  destruct input as [| |b|z|s|f src|r].
  1-6: rewrite normaliseKeys_fuel_S; simpl;
       repeat (match goal with |- context [if ?c then _ else _] => destruct c end);
       simpl; done.
  assert (fuel_needed h (VObject r) ∅ ≤ S (length h + 1)) as Hfuel.
  { unfold fuel_needed. destruct (h !! r) as [[elems|]|]; try lia.
    pose proof (unvisited_le_length h ({[r]} ∪ ∅)). lia. }
  pose proof (call_sound h _ r ∅ Hfuel) as Hcall.
  destruct (normaliseKeys_fuel (S (length h + 1)) h (VObject r) ∅)
    as [[out refs']| |]; simpl in *; done.
Qed.

(** [refs] only grows. *)
Lemma loop_refs_grow
    (rec : Value → gset nat → Outcome (list string * gset nat))
    (elems : list Value) :
  (∀ v refs out refs', rec v refs = Return (out, refs') → refs ⊆ refs') →
  ∀ refs out out' refs',
    normaliseKeys_loop rec elems refs out = Return (out', refs') →
    refs ⊆ refs'.
Proof.
  intros Hrec. induction elems as [|v rest IH]; intros refs out out' refs';
    simpl.
  { by intros [= _ <-]. }
  destruct (negb (truthy v)); [apply IH |].
  destruct v; simpl; try apply IH.
  destruct (decide (r ∈ refs)); [apply IH |].
  destruct (rec (VObject r) ({[r]} ∪ refs)) as [[sub refs'']| |] eqn:Hcall;
    [| done | done].
  intros Hloop. apply Hrec in Hcall. apply IH in Hloop. set_solver.
Qed.

Lemma refs_grow (n : nat) (h : Heap) :
  ∀ v refs out refs',
    normaliseKeys_fuel n h v refs = Return (out, refs') → refs ⊆ refs'.
Proof.
  induction n as [|n IH]; intros v refs out refs'; [done |].
  rewrite normaliseKeys_fuel_S.
  destruct v as [| |b|z|s|f src|r]; cbn [typeof];
    try done; try (apply loop_refs_grow, IH).
  destruct (h !! r) as [[elems|]|]; [| done | done].
  intros Hloop. apply loop_refs_grow in Hloop; [set_solver | apply IH].
Qed.

(** The result depends on the heap only through the objects that [refs]
    does not hold yet, and through the input. *)
Lemma loop_heap_ext
    (rec1 rec2 : Value → gset nat → Outcome (list string * gset nat))
    (known : gset nat) (elems : list Value) :
  (∀ v refs out refs', rec1 v refs = Return (out, refs') → refs ⊆ refs') →
  (∀ r refs, r ∉ known → known ⊆ refs →
             rec1 (VObject r) refs = rec2 (VObject r) refs) →
  ∀ refs out, known ⊆ refs →
    normaliseKeys_loop rec1 elems refs out
    = normaliseKeys_loop rec2 elems refs out.
Proof.
  intros Hgrow Hrec. induction elems as [|v rest IH]; intros refs out Hk;
    simpl; [done |].
  destruct (negb (truthy v)); [by apply IH |].
  destruct v; simpl; try by apply IH.
  destruct (decide (r ∈ refs)) as [Hin|Hnot]; [by apply IH |].
  rewrite <- Hrec by set_solver.
  destruct (rec1 (VObject r) ({[r]} ∪ refs)) as [[sub refs'']| |] eqn:Hcall;
    [| done | done].
  apply IH. apply Hgrow in Hcall. set_solver.
Qed.

Lemma heap_ext (h1 h2 : Heap) (known : gset nat) (n : nat) :
  (∀ r, r ∉ known → h1 !! r = h2 !! r) →
  ∀ r refs, r ∉ known → known ⊆ refs →
    normaliseKeys_fuel n h1 (VObject r) refs
    = normaliseKeys_fuel n h2 (VObject r) refs.
Proof.
  intros Hagree. induction n as [|n IH]; intros r refs Hr Hk; [done |].
  rewrite !normaliseKeys_fuel_S. simpl. rewrite <- Hagree by done.
  destruct (h1 !! r) as [[elems|]|]; [| done | done].
  apply (loop_heap_ext _ _ known); [apply refs_grow | apply IH | set_solver].
Qed.

(** The call that [add] and [delete] make, on their rest array. *)
Lemma normaliseKeys_rest (h : Heap) (args : list Value) :
  normaliseKeys (h ++ [Iterable args]) (VObject (length h))
  = bind (normaliseKeys_loop
            (normaliseKeys_fuel (length h + 2) (h ++ [Iterable args]))
            args {[length h]} [])
         (λ '(output, _), Return output).
Proof.
  unfold normaliseKeys. rewrite length_app. simpl.
  replace (length h + 1 + 2) with (S (length h + 2)) by lia.
  rewrite normaliseKeys_fuel_S. simpl.
  rewrite list_lookup_middle by done.
  by rewrite (right_id_L ∅ (∪)).
Qed.

(** A falsy element, and one that is neither a string nor an object, is
    passed over. *)
Lemma loop_skip (rec : Value → gset nat → Outcome (list string * gset nat))
    (v : Value) (rest : list Value) (refs : gset nat) (out : list string) :
  skipped v = true →
  normaliseKeys_loop rec (v :: rest) refs out
  = normaliseKeys_loop rec rest refs out.
Proof.
  unfold skipped, key_source. intros Hv.
  destruct v; simpl in *; try done.
  - by destruct b.
  - by destruct (negb (z =? 0)%Z).
  - rewrite orb_false_r in Hv. by rewrite Hv.
Qed.

Lemma loop_cons_ext (rec : Value → gset nat → Outcome (list string * gset nat))
    (v : Value) (l l' : list Value) :
  (∀ refs out, normaliseKeys_loop rec l refs out
               = normaliseKeys_loop rec l' refs out) →
  ∀ refs out, normaliseKeys_loop rec (v :: l) refs out
              = normaliseKeys_loop rec (v :: l') refs out.
Proof.
  intros H refs out. simpl.
  destruct (negb (truthy v)); [done |].
  destruct v; simpl; try done.
  destruct (decide (r ∈ refs)); [done |].
  destruct (rec (VObject r) ({[r]} ∪ refs)) as [[sub refs']| |]; done.
Qed.

Lemma loop_skip_middle
    (rec : Value → gset nat → Outcome (list string * gset nat))
    (l1 : list Value) (v : Value) (l2 : list Value) :
  skipped v = true →
  ∀ refs out, normaliseKeys_loop rec (l1 ++ v :: l2) refs out
              = normaliseKeys_loop rec (l1 ++ l2) refs out.
Proof.
  intros Hv. induction l1 as [|x l1 IH]; intros refs out.
  - by apply loop_skip.
  - by apply loop_cons_ext.
Qed.

Lemma key_source_skipped (v : Value) : key_source v = false → skipped v = true.
Proof. unfold skipped. intros ->. by rewrite orb_true_r. Qed.

(** The loop over one string, and over two. *)
Lemma loop_string (rec : Value → gset nat → Outcome (list string * gset nat))
    (s : string) (rest : list Value) (refs : gset nat) (out : list string) :
  s ≠ "" →
  normaliseKeys_loop rec (VString s :: rest) refs out
  = normaliseKeys_loop rec rest refs (out ++ split_whitespace (trim s)).
Proof. intros Hs. simpl. by rewrite bool_decide_eq_false_2. Qed.

Lemma loop_two_keys (rec : Value → gset nat → Outcome (list string * gset nat))
    (a b : string) (refs : gset nat) :
  valid_key a → valid_key b →
  normaliseKeys_loop rec [VString a; VString b] refs [] = Return ([a; b], refs).
Proof.
  intros Ha Hb. rewrite !loop_string by (by destruct Ha, Hb).
  by rewrite !split_key.
Qed.

(** An array that holds itself, and twice the same array: the second
    visit of an object is passed over. *)
Example cyclic_array :
  normaliseKeys [Iterable [VString "a"; VObject 0; VString "b"]] (VObject 0)
  = Return ["a"; "b"]
  ∧ normaliseKeys [Iterable [VObject 1; VObject 1]; Iterable [VString "a"]]
      (VObject 0)
    = Return ["a"].
Proof. by vm_compute. Qed.

(** A plain object among the arguments makes the normalisation raise. *)
Lemma normaliseKeys_rest_plain (h : Heap) (args : list Value) (r : nat) :
  VObject r ∈ args → h !! r = Some Plain →
  normaliseKeys (h ++ [Iterable args]) (VObject (length h))
  = Throw not_iterable.
Proof.
  intros Hin Hplain. rewrite normaliseKeys_rest.
  set (h' := h ++ [Iterable args]).
  pose proof (loop_sound (length h + 2) h' (call_sound h' _) args
                {[length h]} []) as Hloop.
  assert (unvisited h' {[length h]} + 1 ≤ length h + 2) as Hfuel.
  { pose proof (unvisited_insert h' (length h) ∅) as Hlt.
    pose proof (unvisited_le_length h' ∅) as Hle.
    rewrite (right_id_L ∅ (∪)) in Hlt. unfold h' in *.
    rewrite length_app in *. simpl in *.
    assert (length h < length h + 1) as H1 by lia.
    specialize (Hlt H1 (not_elem_of_empty _)). lia. }
  specialize (Hloop Hfuel).
  destruct (normaliseKeys_loop _ args _ _) as [[out refs']| |]; simpl in *.
  - exfalso. destruct Hloop as [_ Hres].
    destruct Hres as [Hiter Hall].
    { intros r' ->%elem_of_singleton. exists args.
      unfold h'. by apply list_lookup_middle. }
    destruct (Hiter r (Hall r Hin)) as [elems Hl].
    unfold h' in Hl. rewrite lookup_app_l in Hl
      by (by apply lookup_lt_Some in Hplain).
    congruence.
  - by subst.
  - done.
Qed.

End NormaliseFacts.

(** ** ObservedKeyList *)

Module KeyListFacts.
Import JsString Normalise StringFacts NormaliseFacts ObservedKeyList.

(** *** The handler and the scheduler *)

Lemma handler_queued (w : World) :
  callbackQueued w = true → handler w = w.
Proof. intros H. unfold handler. by rewrite H. Qed.

Lemma handler_idle (w : World) :
  callbackQueued w = false → truthy (callback w) = true →
  handler w = set_queue true (S (ticks w)) (log w) w.
Proof. intros H1 H2. unfold handler. by rewrite H1, H2. Qed.

Lemma handler_silent (w : World) :
  truthy (callback w) = false → handler w = w.
Proof. intros H. unfold handler. rewrite H. by rewrite orb_true_r. Qed.

Lemma handler_idem (w : World) : handler (handler w) = handler w.
Proof.
  destruct (callbackQueued w) eqn:Hq.
  { rewrite (handler_queued w Hq). by apply handler_queued. }
  destruct (truthy (callback w)) eqn:Ht.
  - rewrite (handler_idle w) by done. by apply handler_queued.
  - rewrite (handler_silent w Ht). by apply handler_silent.
Qed.

Lemma handler_fields (w : World) :
  self (handler w) = self w ∧ keys (handler w) = keys w
  ∧ callback (handler w) = callback w
  ∧ disposables (handler w) = disposables w
  ∧ observers (handler w) = observers w
  ∧ next_id (handler w) = next_id w ∧ log (handler w) = log w.
Proof. unfold handler. by destruct (_ || _). Qed.

Lemma handler_queue (w : World) : QueueOk w → QueueOk (handler w).
Proof.
  unfold QueueOk, handler.
  destruct (callbackQueued w) eqn:Hq; simpl; [by rewrite Hq |].
  destruct (negb (truthy (callback w))); simpl; [by rewrite Hq | lia].
Qed.

Lemma iter_handler (n : nat) (w : World) :
  Nat.iter (S n) handler w = handler w.
Proof.
  induction n as [|n IH]; [done |].
  change (handler (Nat.iter (S n) handler w) = handler w).
  by rewrite IH, handler_idem.
Qed.

Lemma iter_handler_queued (n : nat) (w : World) :
  callbackQueued w = true → Nat.iter n handler w = w.
Proof.
  intros H. destruct n; [done |].
  by rewrite iter_handler, handler_queued.
Qed.

Lemma config_change_cases (key : string) (w : World) :
  config_change key w = w ∨ config_change key w = handler w.
Proof.
  unfold config_change. destruct (size _); [by left | right].
  apply iter_handler.
Qed.

Lemma tick_queue (w : World) : QueueOk w → QueueOk (tick w).
Proof.
  unfold QueueOk, tick. destruct (ticks w) as [|n] eqn:Hn; simpl.
  - by rewrite Hn.
  - destruct (callbackQueued w); lia.
Qed.

(** *** The subscriptions *)

Lemma lookup_cancel (ds : list nat) (obs : gmap nat string) (d : nat) :
  cancel ds obs !! d = if decide (d ∈ ds) then None else obs !! d.
Proof.
  induction ds as [|x ds IH].
  - destruct (decide (d ∈ [])) as [H|]; [by apply elem_of_nil in H | done].
  - change (cancel (x :: ds) obs) with (base.delete x (cancel ds obs)).
    rewrite lookup_delete, IH.
    destruct (decide (x = d)), (decide (d ∈ ds)), (decide (d ∈ x :: ds));
      set_solver.
Qed.

Lemma elem_of_md_all (md : MappedDisposable) (d : nat) :
  d ∈ md_all md ↔ ∃ k ds, md_map md !! k = Some ds ∧ d ∈ ds.
Proof.
  unfold md_all. rewrite list_elem_of_bind. split.
  - intros [[k ds] [Hd Hin]]. apply elem_of_map_to_list in Hin. eauto.
  - intros (k & ds & Hl & Hd). exists (k, ds). split; [done |].
    by apply elem_of_map_to_list.
Qed.

Lemma subs_add (ks : gset string) (md : MappedDisposable)
    (obs : gmap nat string) (next : nat) (key : string) :
  SubsOk ks md obs next → key ∉ ks →
  SubsOk ({[key]} ∪ ks) (md_add key next md) (<[next := key]> obs) (S next).
Proof.
  intros (Hd & Hdom & Hone & Hobs & Hlt & Hid) Hkey.
  assert (md_map md !! key = None) as Hnone.
  { apply eq_None_not_Some. by rewrite <- Hdom. }
  unfold md_add. rewrite Hd, Hnone. split_and!; simpl.
  - done.
  - intros k. rewrite elem_of_union, elem_of_singleton, lookup_insert_is_Some.
    rewrite Hdom. destruct (decide (key = k)); naive_solver.
  - intros k ds Hl. destruct (decide (k = key)) as [->|Hne].
    + rewrite lookup_insert_eq in Hl. simplify_eq. exists next.
      by rewrite lookup_insert_eq.
    + rewrite lookup_insert_ne in Hl by done.
      destruct (Hone _ _ Hl) as (d & -> & Ho). exists d. split; [done |].
      rewrite lookup_insert_ne; [done |].
      intros <-. assert (next < next) by (apply Hlt; eauto). lia.
  - intros d k Ho. destruct (decide (d = next)) as [->|Hne].
    + rewrite lookup_insert_eq in Ho. simplify_eq.
      by rewrite lookup_insert_eq.
    + rewrite lookup_insert_ne in Ho by done.
      pose proof (Hobs _ _ Ho) as Hl.
      rewrite lookup_insert_ne; [done |]. congruence.
  - intros d [k Hk]. destruct (decide (d = next)) as [->|Hne]; [lia |].
    rewrite lookup_insert_ne in Hk by done.
    assert (d < next) by (apply Hlt; eauto). lia.
  - lia.
Qed.

Lemma subs_delete (ks : gset string) (md : MappedDisposable)
    (obs : gmap nat string) (next : nat) (key : string) :
  SubsOk ks md obs next →
  SubsOk (ks ∖ {[key]}) (md_dispose_key key md obs).1
    (md_dispose_key key md obs).2 next.
Proof.
  intros (Hd & Hdom & Hone & Hobs & Hlt & Hid).
  unfold md_dispose_key. rewrite Hd.
  destruct (md_map md !! key) as [ds|] eqn:Hkey; simpl.
  - destruct (Hone _ _ Hkey) as (d & -> & Hod). simpl. split_and!; simpl.
    + done.
    + intros k. rewrite elem_of_difference, elem_of_singleton, Hdom.
      rewrite lookup_delete. case_decide; subst; [| naive_solver].
      split; [naive_solver | by intros []%is_Some_None].
    + intros k ds. rewrite lookup_delete. case_decide; [done |].
      intros Hl. destruct (Hone _ _ Hl) as (d' & -> & Ho).
      exists d'. split; [done |]. rewrite lookup_delete.
      case_decide; [congruence | done].
    + intros d' k. rewrite lookup_delete. case_decide; [done |].
      intros Ho. pose proof (Hobs _ _ Ho) as Hl.
      rewrite lookup_delete. case_decide; [| done]. congruence.
    + intros d' [k Hk]. rewrite lookup_delete in Hk.
      case_decide; [done |]. apply Hlt. eauto.
    + done.
  - split_and!; try done.
    intros k. rewrite elem_of_difference, elem_of_singleton, Hdom.
    split; [naive_solver |]. intros Hk. split; [done |].
    intros ->. rewrite Hkey in Hk. by apply is_Some_None in Hk.
Qed.

Lemma subs_dispose_all (ks : gset string) (md : MappedDisposable)
    (obs : gmap nat string) (next : nat) :
  SubsOk ks md obs next → (md_dispose md obs).2 = ∅.
Proof.
  intros (Hd & Hdom & Hone & Hobs & Hlt & Hid).
  unfold md_dispose. rewrite Hd. simpl. apply map_empty. intros d.
  rewrite lookup_cancel. case_decide as Hin; [done |].
  destruct (obs !! d) as [k|] eqn:Ho; [| done].
  destruct Hin. apply elem_of_md_all. exists k, [d].
  split; [by apply Hobs | set_solver].
Qed.

Lemma subs_new (next : nat) : SubsOk ∅ (md_new next) ∅ (S next).
Proof.
  split_and!; simpl; try done.
  - intros k. rewrite lookup_empty. split; [set_solver |].
    by intros []%is_Some_None.
  - intros d []%is_Some_None.
  - lia.
Qed.

(** *** The operations keep the invariant *)

Lemma add_key_inv (w : World) (key : string) : Inv w → Inv (add_key w key).
Proof.
  intros [Hq Hs]. unfold add_key. case_decide as Hin; [done |].
  unfold config_observe. simpl.
  set (w1 := set_keys ({[key]} ∪ keys w) w).
  destruct (handler_fields w1) as (_ & Hk & _ & Hd & Ho & Hn & _).
  split.
  - apply (handler_queue w1). apply Hq.
  - simpl. rewrite Hd, Ho, Hn, Hk. simpl. by apply subs_add.
Qed.

Lemma delete_key_inv (w : World) (key : string) :
  Inv w → Inv (delete_key w key).
Proof.
  intros [Hq Hs]. unfold delete_key. simpl.
  pose proof (subs_delete _ _ _ _ key Hs) as Hs'.
  destruct (md_dispose_key key (disposables w) (observers w)) as [md obs].
  split; [apply Hq | apply Hs'].
Qed.

Lemma clear_observers (w : World) : Inv w → observers (clear w) = ∅.
Proof.
  intros [Hq Hs]. unfold clear. simpl.
  pose proof (subs_dispose_all _ _ _ _ Hs) as He.
  by destruct (md_dispose (disposables w) (observers w)) as [md obs].
Qed.

Lemma clear_inv (w : World) : Inv w → Inv (clear w).
Proof.
  intros HI. pose proof (clear_observers w HI) as He. destruct HI as [Hq Hs].
  unfold clear in *. simpl in *.
  destruct (md_dispose (disposables w) (observers w)) as [md obs].
  simpl in *. subst obs. split; [apply Hq | apply subs_new].
Qed.

Lemma foldl_inv (f : World → string → World) (ks : list string) :
  (∀ w k, Inv w → Inv (f w k)) → ∀ w, Inv w → Inv (foldl f w ks).
Proof. intros Hf. induction ks as [|k ks IH]; simpl; auto. Qed.

Lemma add_inv (h : Heap) (args : list Value) (w : World) :
  Inv w → Inv (add h args w).1.
Proof.
  intros HI. unfold add. simpl.
  destruct (normaliseKeys _ _); simpl; [| done | done].
  by apply foldl_inv; [apply add_key_inv |].
Qed.

Lemma delete_inv (h : Heap) (args : list Value) (w : World) :
  Inv w → Inv (delete h args w).1.
Proof.
  intros HI. unfold delete. simpl.
  destruct (normaliseKeys _ _); simpl; [| done | done].
  by apply foldl_inv; [apply delete_key_inv |].
Qed.

Lemma handler_inv (w : World) : Inv w → Inv (handler w).
Proof.
  intros [Hq Hs]. split; [by apply handler_queue |].
  destruct (handler_fields w) as (_ & Hk & _ & Hd & Ho & Hn & _).
  by rewrite Hk, Hd, Ho, Hn.
Qed.

Lemma config_change_inv (key : string) (w : World) :
  Inv w → Inv (config_change key w).
Proof.
  intros HI. destruct (config_change_cases key w) as [->| ->];
    [done | by apply handler_inv].
Qed.

Lemma tick_inv (w : World) : Inv w → Inv (tick w).
Proof.
  intros [Hq Hs]. split; [by apply tick_queue |].
  unfold tick. by destruct (ticks w).
Qed.

Lemma step_inv (w : World) (e : Event) : Inv w → Inv (step w e).
Proof.
  intros HI. destruct e; simpl.
  - by apply add_inv.
  - by apply delete_inv.
  - by apply clear_inv.
  - destruct HI as [Hq Hs]. by split.
  - by apply config_change_inv.
  - by apply tick_inv.
Qed.

Lemma constructor_inv (h : Heap) (id : nat) (cb : Value) (ks : list Value)
    (w : World) :
  constructor h id cb ks = Return w → Inv w.
Proof.
  unfold constructor. intros H.
  destruct (negb _ && negb _); [done |].
  set (w0 := fresh id _) in H.
  assert (Inv w0) as H0 by (split; [done | apply subs_new]).
  destruct ks as [|k ks]; [by simplify_eq |].
  pose proof (add_inv h (k :: ks) w0 H0) as H1.
  destruct (add h (k :: ks) w0) as [w' [[]| |]]; by simplify_eq.
Qed.

(** Every world that an instance can be in satisfies the invariant. *)
Lemma reachable_inv (w : World) : Reachable w → Inv w.
Proof.
  induction 1 as [h id cb ks w H | w e _ IH].
  - by eapply constructor_inv.
  - by apply step_inv.
Qed.

(** *** What leaves the callback and the log alone *)

Lemma quiet_refl (w : World) : quiet w w.
Proof. by repeat split. Qed.

Lemma quiet_trans (w1 w2 w3 : World) : quiet w1 w2 → quiet w2 w3 → quiet w1 w3.
Proof. unfold quiet. intros (-> & -> & ->) (-> & -> & ->). done. Qed.

Lemma handler_quiet (w : World) : quiet w (handler w).
Proof. destruct (handler_fields w) as (? & _ & ? & _ & _ & _ & ?). by split. Qed.

Lemma add_key_quiet (w : World) (key : string) : quiet w (add_key w key).
Proof.
  unfold add_key. case_decide; [apply quiet_refl |].
  unfold config_observe. simpl.
  apply (handler_quiet (set_keys ({[key]} ∪ keys w) w)).
Qed.

Lemma delete_key_quiet (w : World) (key : string) : quiet w (delete_key w key).
Proof.
  unfold delete_key. simpl.
  by destruct (md_dispose_key _ _ _).
Qed.

Lemma foldl_quiet (f : World → string → World) (ks : list string) :
  (∀ w k, quiet w (f w k)) → ∀ w, quiet w (foldl f w ks).
Proof.
  intros Hf. induction ks as [|k ks IH]; intros w; simpl.
  - apply quiet_refl.
  - eapply quiet_trans; [apply Hf | apply IH].
Qed.

Lemma clear_quiet (w : World) : quiet w (clear w).
Proof. unfold clear. simpl. by destruct (md_dispose _ _). Qed.

Lemma config_change_quiet (key : string) (w : World) :
  quiet w (config_change key w).
Proof.
  destruct (config_change_cases key w) as [->| ->];
    [apply quiet_refl | apply handler_quiet].
Qed.

Lemma add_quiet (h : Heap) (args : list Value) (w : World) :
  quiet w (add h args w).1.
Proof.
  unfold add. simpl. destruct (normaliseKeys _ _); simpl;
    [| apply quiet_refl | apply quiet_refl].
  apply foldl_quiet, add_key_quiet.
Qed.

Lemma delete_quiet (h : Heap) (args : list Value) (w : World) :
  quiet w (delete h args w).1.
Proof.
  unfold delete. simpl. destruct (normaliseKeys _ _); simpl;
    [| apply quiet_refl | apply quiet_refl].
  apply foldl_quiet, delete_key_quiet.
Qed.

(** *** Coalescing *)

(** Settle a decidable statement about concrete data by evaluation. *)
Ltac by_compute := apply (bool_decide_unpack _); vm_compute; exact I.

Lemma reachable_run (w : World) (es : list Event) :
  Reachable w → Reachable (run w es).
Proof.
  revert w. induction es as [|e es IH]; intros w Hw; simpl; [done |].
  apply IH. by constructor.
Qed.

Lemma run_changes_queued (w : World) (changed : list string) :
  callbackQueued w = true → run w (EChange <$> changed) = w.
Proof.
  intros Hq. induction changed as [|k ks IH]; simpl; [done |].
  unfold config_change. by rewrite iter_handler_queued.
Qed.

(** A change of an observed key reaches the handler. *)
Lemma config_change_observed (key : string) (w : World) :
  Inv w → key ∈ keys w → config_change key w = handler w.
Proof.
  intros [_ (Hd & Hdom & Hone & Hobs & _)] Hkey. unfold config_change.
  destruct (size _) as [|n] eqn:Hsize; [| apply iter_handler].
  exfalso. apply Hdom in Hkey as [ds Hds].
  destruct (Hone _ _ Hds) as (d & -> & Ho).
  apply map_size_empty_iff in Hsize.
  assert (filter (λ kv : nat * string, kv.2 = key) (observers w) !! d
          = Some key) as Hf by (by apply map_lookup_filter_Some).
  by rewrite Hsize, lookup_empty in Hf.
Qed.

Lemma function_truthy (v : Value) : typeof v = TFunction → truthy v = true.
Proof. by destruct v. Qed.

(** A waiting dispatch runs: the flag is cleared and the callback is
    called once. *)
Lemma tick_waiting (w : World) :
  Inv w → callbackQueued w = true → typeof (callback w) = TFunction →
  tick w
  = set_queue false 0
      (Called {| callee := callback w; arguments := [];
                 this_value := self w |} :: log w) w.
Proof.
  intros [Hq _] Hqd Hfn. unfold QueueOk in Hq. rewrite Hqd in Hq.
  unfold tick, call_callback. rewrite Hq. simpl. by rewrite Hfn.
Qed.

(** From rest, a change of an observed key makes a dispatch wait. *)
Lemma change_at_rest (key : string) (w : World) :
  Inv w → callbackQueued w = false → typeof (callback w) = TFunction →
  key ∈ keys w →
  config_change key w = set_queue true 1 (log w) w.
Proof.
  intros HI Hqd Hfn Hkey. rewrite config_change_observed by done.
  rewrite handler_idle by (by try apply function_truthy).
  destruct HI as [Hq _]. unfold QueueOk in Hq. rewrite Hqd in Hq.
  by rewrite Hq.
Qed.

(** C1. For every ObservedKeyList instance, at any instant at most one
    deferred dispatch is scheduled and not yet run.  Any number of change
    notifications that arrive while a dispatch is scheduled leave exactly
    that one dispatch, which calls the callback exactly once; starting
    from rest, the first notification for an observed key schedules it.
    A notification that arrives after the dispatch has run schedules a
    new, separate one, which calls the callback once more. *)
Theorem one_dispatch_per_burst (w : World) :
  Reachable w →
  let call := Called {| callee := callback w; arguments := [];
                        this_value := self w |} in
  ticks w ≤ 1
  ∧ (callbackQueued w = true → typeof (callback w) = TFunction →
     ∀ changed : list string,
       let w1 := run w (EChange <$> changed) in
       ticks w1 = 1 ∧ log w1 = log w
       ∧ log (tick w1) = call :: log w ∧ ticks (tick w1) = 0)
  ∧ (callbackQueued w = false → typeof (callback w) = TFunction →
     ∀ (key : string) (changed : list string) (later : string),
       key ∈ keys w → later ∈ keys w →
       let w1 := run w (EChange <$> key :: changed) in
       let w2 := tick w1 in
       let w3 := config_change later w2 in
       let w4 := tick w3 in
       ticks w1 = 1 ∧ log w1 = log w
       ∧ log w2 = call :: log w ∧ ticks w2 = 0
       ∧ ticks w3 = 1 ∧ log w3 = log w2
       ∧ log w4 = call :: call :: log w ∧ ticks w4 = 0).
Proof.
  intros Hreach call. pose proof (reachable_inv w Hreach) as HI.
  split_and!.
  - destruct HI as [Hq _]. unfold QueueOk in Hq.
    destruct (callbackQueued w); lia.
  - intros Hqd Hfn changed w1. subst w1.
    rewrite run_changes_queued by done.
    rewrite tick_waiting by done. simpl.
    destruct HI as [Hq _]. unfold QueueOk in Hq. rewrite Hqd in Hq. done.
  - intros Hqd Hfn key changed later Hkey Hlater w1 w2 w3 w4.
    assert (w1 = set_queue true 1 (log w) w) as E1.
    { subst w1. simpl. rewrite change_at_rest by done.
      by apply run_changes_queued. }
    assert (Reachable w2) as Hreach2.
    { subst w2 w1. apply (reach_step _ ETick). by apply reachable_run. }
    pose proof (reachable_inv w2 Hreach2) as HI2.
    assert (w2 = set_queue false 0 (call :: log w) w) as E2.
    { subst w2. rewrite E1. unfold tick, call_callback. simpl.
      by rewrite Hfn. }
    assert (w3 = set_queue true 1 (call :: log w) w) as E3.
    { subst w3. rewrite E2 in HI2 |- *. by rewrite change_at_rest. }
    assert (w4 = set_queue false 0 (call :: call :: log w) w) as E4.
    { subst w4. rewrite E3. unfold tick, call_callback. simpl.
      by rewrite Hfn. }
    by rewrite E1, E2, E3, E4.
Qed.

(** The theorem at [new ObservedKeyList(fn, 'x')] once its first dispatch
    has run: a burst of changes of [x], and a later change. *)
Lemma one_dispatch_per_burst_witness :
  Reachable Examples.idle
  ∧ ticks (run Examples.idle [EChange "x"; EChange "x"; EChange "x"]) = 1
  ∧ length (log (run Examples.idle
                   [EChange "x"; EChange "x"; EChange "x"; ETick]))
    = S (length (log Examples.idle)).
Proof.
  assert (Reachable Examples.idle) as Hreach.
  { apply (reach_step _ ETick), (reach_step _ (EAdd [] [VString "x"])).
    by apply (reach_new [] 0 Examples.fn []). }
  split; [exact Hreach |].
  destruct (one_dispatch_per_burst Examples.idle Hreach) as (_ & _ & H).
  assert ("x" ∈ keys Examples.idle) as Hx by by_compute.
  destruct (H eq_refl eq_refl "x" ["x"; "x"] "x" Hx Hx) as (H1 & _ & H2 & _).
  split; [exact H1 |].
  change (run Examples.idle [EChange "x"; EChange "x"; EChange "x"; ETick])
    with (tick (run Examples.idle (EChange <$> ["x"; "x"; "x"]))).
  by rewrite H2.
Defined.

(** *** Dispatching the callback *)

Lemma step_quiet (w : World) (e : Event) : e ≠ ETick → log (step w e) = log w.
Proof.
  intros He. destruct e; simpl; try done.
  - apply add_quiet.
  - apply delete_quiet.
  - apply clear_quiet.
  - apply config_change_quiet.
Qed.

(** C2 at [kl = new ObservedKeyList(fn, 'x'); kl.callback = null],
    when the scheduler takes its turn.  The claim has the dispatch call
    the callback only if it is still there when the dispatch runs.  The
    dispatch that was scheduled while [fn] was the callback clears the
    flag and then does not pass over the call: it attempts it, and a
    [TypeError] is raised.  The handler, on the other hand, does test
    the callback: a change of [x] that is notified afterwards schedules
    nothing. *)
Lemma dispatch_without_callback_raises :
  callback Examples.orphaned = VNull
  ∧ ticks Examples.orphaned = 1
  ∧ callbackQueued (tick Examples.orphaned) = false
  ∧ log (tick Examples.orphaned)
    = Raised not_a_function :: log Examples.orphaned
  ∧ config_change "x" (tick Examples.orphaned) = tick Examples.orphaned.
Proof. by vm_compute. Qed.

(** The parts of C2 that hold on every world.  No event but the
    scheduler's turn calls the callback: the dispatch is never
    synchronous with the change that caused it.
    Whether there is a callback is looked at when the notification
    arrives: the handler does nothing when a dispatch is waiting or when
    the callback is falsy, and otherwise sets the flag and schedules one
    dispatch.  A dispatch that runs clears the flag and, when the
    callback is a function at that time, calls it with no arguments and
    with the instance as [this]. *)
Theorem dispatch_is_deferred (w : World) :
  (∀ e, e ≠ ETick → log (step w e) = log w)
  ∧ (callbackQueued w = true ∨ truthy (callback w) = false → handler w = w)
  ∧ (callbackQueued w = false → truthy (callback w) = true →
     callbackQueued (handler w) = true ∧ ticks (handler w) = S (ticks w)
     ∧ log (handler w) = log w)
  ∧ (∀ n, ticks w = S n →
     callbackQueued (tick w) = false ∧ ticks (tick w) = n
     ∧ (typeof (callback w) = TFunction →
        log (tick w)
        = Called {| callee := callback w; arguments := [];
                    this_value := self w |} :: log w)).
Proof.
  split_and!.
  - intros e. apply step_quiet.
  - intros [H|H]; [by apply handler_queued | by apply handler_silent].
  - intros Hq Ht. by rewrite handler_idle.
  - intros n Hn. unfold tick, call_callback. rewrite Hn. simpl.
    split_and!; try done. by intros ->.
Qed.

(** The theorem at [new ObservedKeyList(fn, 'x')], whose first dispatch
    is waiting. *)
Lemma dispatch_is_deferred_witness :
  ticks Examples.observing = 1
  ∧ log (tick Examples.observing)
    = [Called {| callee := Examples.fn; arguments := []; this_value := 0 |}].
Proof.
  destruct (dispatch_is_deferred Examples.observing) as (_ & _ & _ & H).
  destruct (H 0 eq_refl) as (_ & _ & Hcall).
  split; [reflexivity | exact (Hcall eq_refl)].
Defined.

(** *** The callback property *)

(** C3, as it is stated, does not hold: assigning the number 50 to
    [callback] raises nothing and replaces the callback. *)
Lemma assignment_is_not_validated :
  callback Examples.silent = Examples.fn
  ∧ (assign_callback (VNumber 50) Examples.silent).2 = Return ()
  ∧ callback (assign_callback (VNumber 50) Examples.silent).1 = VNumber 50.
Proof. by vm_compute. Qed.

(** C3, amended.  Constructing an ObservedKeyList with a callback
    argument other than [undefined], [null] or a function raises a
    [TypeError] before any instance exists.  Assigning to the [callback]
    property is not validated: whatever the value, it is stored and
    nothing is raised. *)
Theorem callback_validation (h : Heap) (id : nat) (v : Value)
    (ks : list Value) (w : World) :
  (v ≠ VUndefined → v ≠ VNull → typeof v ≠ TFunction →
   constructor h id v ks = Throw not_a_callback)
  ∧ assign_callback v w = (set_callback v w, Return ()).
Proof.
  split; [| done]. intros Hu Hn Hf. unfold constructor.
  destruct v; simpl in *; done.
Qed.

Lemma callback_validation_witness :
  constructor [] 0 (VNumber 50) [] = Throw not_a_callback
  ∧ assign_callback (VNumber 50) Examples.silent
    = (set_callback (VNumber 50) Examples.silent, Return ()).
Proof.
  destruct (callback_validation [] 0 (VNumber 50) [] Examples.silent)
    as [Hnew Hset].
  split; [| exact Hset].
  apply Hnew; discriminate.
Defined.

(** *** [clear] *)

(** C9. [clear()] empties the key set, disposes of every subscription
    and of the store that held them, and puts a new, empty store in its
    place; the callback is left as it was, and so are the waiting
    dispatch and the log.  On an instance without keys it changes
    nothing but the identity of the store, and clearing twice is
    clearing once. *)
Theorem clear_releases_everything (w : World) :
  Reachable w →
  let w' := clear w in
  keys w' = ∅
  ∧ observers w' = ∅
  ∧ (md_dispose (disposables w) (observers w)).1
    = {| md_id := md_id (disposables w); disposed := true; md_map := ∅ |}
  ∧ disposables w' = md_new (next_id w)
  ∧ md_id (disposables w') ≠ md_id (disposables w)
  ∧ callback w' = callback w
  ∧ callbackQueued w' = callbackQueued w ∧ ticks w' = ticks w
  ∧ log w' = log w
  ∧ (keys w = ∅ → same_state w w')
  ∧ same_state w' (clear w').
Proof.
  intros Hreach w'. subst w'. pose proof (reachable_inv w Hreach) as HI.
  pose proof (clear_observers w HI) as Hobs.
  pose proof (clear_observers (clear w) (clear_inv w HI)) as Hobs'.
  destruct HI as [Hq (Hd & Hdom & Hone & Hlive & Hlt & Hid)].
  assert (disposables (clear w) = md_new (next_id w)) as Hnew.
  { unfold clear. simpl. by destruct (md_dispose _ _). }
  assert (keys (clear w) = ∅ ∧ callback (clear w) = callback w
          ∧ callbackQueued (clear w) = callbackQueued w
          ∧ ticks (clear w) = ticks w
          ∧ log (clear w) = log w ∧ self (clear w) = self w)
    as (Hk & Hc & Hcq & Ht & Hl & Hs).
  { unfold clear. simpl. by destruct (md_dispose _ _). }
  assert (∀ u, disposables (clear u) = md_new (next_id u)
               ∧ keys (clear u) = ∅ ∧ callback (clear u) = callback u
               ∧ callbackQueued (clear u) = callbackQueued u
               ∧ ticks (clear u) = ticks u
               ∧ log (clear u) = log u ∧ self (clear u) = self u) as Hclear.
  { intros u. unfold clear. simpl. by destruct (md_dispose _ _). }
  split_and!; try done.
  - unfold md_dispose. by rewrite Hd.
  - rewrite Hnew. simpl. lia.
  - intros Hempty. unfold same_state.
    rewrite Hnew, Hobs, Hd, Hk, Hc, Hcq, Ht, Hl, Hs, Hempty. simpl.
    split_and!; try done.
    + apply map_empty. intros k. apply eq_None_not_Some.
      rewrite <- Hdom, Hempty. set_solver.
    + apply map_empty. intros d. destruct (observers w !! d) as [k|] eqn:Ho;
        [| done].
      apply Hlive in Ho. assert (k ∈ keys w) by (apply Hdom; eauto).
      set_solver.
  - destruct (Hclear (clear w)) as (E1 & E2 & E3 & E4 & E5 & E6 & E7).
    unfold same_state. rewrite Hobs, Hobs', E1, E2, E3, E4, E5, E6, E7, Hnew.
    by rewrite Hk.
Qed.

(** The theorem at [new ObservedKeyList(fn, 'x')]. *)
Lemma clear_releases_everything_witness :
  Reachable Examples.observing
  ∧ keys (clear Examples.observing) = ∅
  ∧ observers (clear Examples.observing) = ∅
  ∧ callback (clear Examples.observing) = Examples.fn.
Proof.
  assert (Reachable Examples.observing) as Hreach.
  { apply (reach_step _ (EAdd [] [VString "x"])).
    by apply (reach_new [] 0 Examples.fn []). }
  split; [exact Hreach |].
  destruct (clear_releases_everything Examples.observing Hreach)
    as (Hk & Ho & _ & _ & _ & Hc & _).
  split; [exact Hk |]. split; [exact Ho | exact Hc].
Defined.

(** *** Normalising the arguments of [add] and [delete] *)

Lemma add_normalised (h : Heap) (args : list Value) (w : World)
    (ks : list string) (refs : gset nat) :
  normaliseKeys_loop
    (normaliseKeys_fuel (length h + 2) (h ++ [Iterable args]))
    args {[length h]} [] = Return (ks, refs) →
  add h args w = (foldl add_key w ks, Return ()).
Proof.
  intros H. unfold add, rest_array. by rewrite normaliseKeys_rest, H.
Qed.

Lemma normaliseKeys_rest_skip (h : Heap) (args1 args2 : list Value)
    (v : Value) :
  skipped v = true →
  normaliseKeys (h ++ [Iterable (args1 ++ v :: args2)]) (VObject (length h))
  = normaliseKeys (h ++ [Iterable (args1 ++ args2)]) (VObject (length h)).
Proof.
  intros Hv. rewrite !normaliseKeys_rest.
  rewrite loop_skip_middle by done.
  f_equal. apply (loop_heap_ext _ _ {[length h]});
    [apply refs_grow | | done].
  apply heap_ext. intros r Hr.
  apply not_elem_of_singleton in Hr.
  destruct (decide (r < length h)).
  - by rewrite !lookup_app_l.
  - rewrite !lookup_ge_None_2; [done | |]; rewrite length_app; simpl; lia.
Qed.

Lemma add_skip_middle (h : Heap) (args1 args2 : list Value) (v : Value)
    (w : World) :
  skipped v = true → add h (args1 ++ v :: args2) w = add h (args1 ++ args2) w.
Proof.
  intros Hv. unfold add, rest_array. by rewrite normaliseKeys_rest_skip.
Qed.

Lemma add_key_keys (w : World) (key : string) :
  keys (add_key w key) = {[key]} ∪ keys w.
Proof.
  unfold add_key. case_decide; [set_solver |].
  unfold config_observe. simpl.
  by destruct (handler_fields (set_keys ({[key]} ∪ keys w) w))
    as (_ & -> & _).
Qed.

Lemma inv_dom (w : World) :
  Inv w → dom (md_map (disposables w)) = keys w.
Proof.
  intros [_ (_ & Hdom & _)]. apply set_eq. intros k.
  by rewrite elem_of_dom, Hdom.
Qed.

(** A blank string that is not empty stands for the empty key. *)
Lemma add_blank_string (h : Heap) (s : string) (w : World) :
  blank s = true → s ≠ "" → add h [VString s] w = (add_key w "", Return ()).
Proof.
  intros Hb Hs. rewrite (add_normalised h [VString s] w [""] {[length h]});
    [done |].
  rewrite loop_string by done. by rewrite split_blank.
Qed.

(** C6 at [new ObservedKeyList().add('   ')].  The claim has blank
    strings dropped like empty ones.  The loop does pass over the empty
    string and trims before it splits, but the one piece that is left of
    a blank string is the empty string, which is not passed over: adding
    a string of three spaces returns normally, puts the empty key into
    the set and subscribes to it. *)
Lemma blank_string_is_observed :
  (add [] [VString "   "] Examples.mute).2 = Return ()
  ∧ keys (add [] [VString "   "] Examples.mute).1 = {[ "" ]}
  ∧ observers (add [] [VString "   "] Examples.mute).1 = {[ 2 := "" ]}.
Proof. by vm_compute. Qed.

(** The part of C6 that holds.  For key names [a] and [b] (not empty,
    free of white space), [add('a b')], [add(['a','b'])], [add('a','b')] and
    [add(' a  b ')] give the very same world, that of adding [a] and
    then [b]: the same key set, and the same keys in the subscription
    store.  An empty string anywhere among the arguments is dropped. *)
Theorem add_forms_agree (h : Heap) (w : World) (a b : string) (r : nat) :
  valid_key a → valid_key b →
  h !! r = Some (Iterable [VString a; VString b]) →
  let result := (add_key (add_key w a) b, Return ()) in
  add h [VString (a +:+ " " +:+ b)] w = result
  ∧ add h [VObject r] w = result
  ∧ add h [VString a; VString b] w = result
  ∧ add h [VString (" " +:+ a +:+ "  " +:+ b +:+ " ")] w = result
  ∧ keys result.1 = {[a; b]} ∪ keys w
  ∧ (Reachable w → dom (md_map (disposables result.1)) = keys result.1)
  ∧ (∀ args1 args2,
       add h (args1 ++ VString "" :: args2) w = add h (args1 ++ args2) w).
Proof.
  intros Ha Hb Hr result.
  assert (result = (foldl add_key w [a; b], Return ())) as Hres by done.
  clearbody result. subst result.
  destruct (split_spaced_keys a b Ha Hb) as [Hs1 Hs2].
  split_and!.
  - eapply add_normalised. rewrite loop_string.
    + by rewrite Hs1.
    + destruct Ha as [Ha _]. by destruct a.
  - eapply add_normalised. simpl.
    assert (r < length h) as Hlt by (by apply lookup_lt_Some in Hr).
    rewrite decide_False by (rewrite elem_of_singleton; lia).
    replace (length h + 2) with (S (length h + 1)) by lia.
    rewrite normaliseKeys_fuel_S. simpl.
    rewrite lookup_app_l, Hr by done.
    by rewrite loop_two_keys.
  - eapply add_normalised. by rewrite loop_two_keys.
  - eapply add_normalised. rewrite loop_string by done.
    by rewrite Hs2.
  - simpl. rewrite !add_key_keys. set_solver.
  - intros Hreach. apply inv_dom.
    by apply add_key_inv, add_key_inv, reachable_inv.
  - intros args1 args2. by apply add_skip_middle.
Qed.

(** The theorem for the keys [a] and [b], with the array [['a','b']]
    of the example heap. *)
Lemma add_forms_agree_witness :
  add Examples.heap [VString "a b"] Examples.mute
  = add Examples.heap [VObject 1] Examples.mute
  ∧ add Examples.heap [VObject 1] Examples.mute
    = add Examples.heap [VString "a"; VString "b"] Examples.mute
  ∧ add Examples.heap [VString "a"; VString "b"] Examples.mute
    = add Examples.heap [VString " a  b "] Examples.mute.
Proof.
  assert (valid_key "a") as Ha by done.
  assert (valid_key "b") as Hb by done.
  destruct (add_forms_agree Examples.heap Examples.mute "a" "b" 1 Ha Hb
              eq_refl) as (H1 & H2 & H3 & H4 & _).
  change ("a" +:+ " " +:+ "b") with "a b" in H1.
  change (" " +:+ "a" +:+ "  " +:+ "b" +:+ " ") with " a  b " in H4.
  split; [exact (eq_trans H1 (eq_sym H2)) |].
  split; [exact (eq_trans H2 (eq_sym H3)) | exact (eq_trans H3 (eq_sym H4))].
Defined.

(** *** Arguments that are neither strings nor objects *)

(** C7, as it is stated, does not hold: [add(42)] adds no key. *)
Lemma number_argument_is_skipped :
  add [] [VNumber 42] Examples.mute = (Examples.mute, Return ())
  ∧ "42" ∉ keys (add [] [VNumber 42] Examples.mute).1.
Proof.
  split; [by vm_compute |].
  apply (bool_decide_unpack _). by vm_compute.
Qed.

(** C7, amended.  An element of the argument list of [add] that is
    neither a string nor an object is passed over: leaving it out
    changes nothing, and alone it adds no key.  It is the input of
    [normaliseKeys] itself that is coerced to its string form before
    the splitting, when it is neither a string nor an object; for a
    number this is stated for the safe whole numbers, whose string form
    is the row of their digits. *)
Theorem scalars_are_skipped (h : Heap) (v : Value) (w : World) :
  key_source v = false →
  (∀ args1 args2,
     add h (args1 ++ v :: args2) w = add h (args1 ++ args2) w)
  ∧ add h [v] w = (w, Return ())
  ∧ (safe_number v = true →
     normaliseKeys h v
     = Return (if bool_decide (ToString v = "") then []
               else split_whitespace (trim (ToString v)))).
Proof.
  intros Hv. pose proof (key_source_skipped v Hv) as Hs. split_and!.
  - intros args1 args2. by apply add_skip_middle.
  - rewrite (add_normalised h [v] w [] {[length h]});
      [done | by rewrite loop_skip].
  - intros _. unfold normaliseKeys.
    replace (length h + 2) with (S (length h + 1)) by lia.
    rewrite normaliseKeys_fuel_S.
    destruct v as [| |b|z|s|f src|r]; try done; simpl;
      by destruct (bool_decide _).
Qed.

Lemma scalars_are_skipped_witness :
  add [] [VString "a"; VNumber 42] Examples.mute
  = add [] [VString "a"] Examples.mute
  ∧ add [] [VNumber 42] Examples.mute = (Examples.mute, Return ())
  ∧ normaliseKeys [] (VNumber 42) = Return ["42"].
Proof.
  destruct (scalars_are_skipped [] (VNumber 42) Examples.mute eq_refl)
    as (H1 & H2 & H3).
  split; [exact (H1 [VString "a"] []) |].
  split; [exact H2 | exact (H3 eq_refl)].
Defined.

(** *** Objects that are not iterable *)

(** C8, as it is stated, does not hold: [add('a', {foo: 'bar'})] raises
    and leaves the instance as it was; the key [a], which comes before
    the object, has not been added. *)
Lemma no_partial_add :
  add Examples.heap [VString "a"; VObject 0] Examples.mute
  = (Examples.mute, Throw not_iterable)
  ∧ "a" ∉ keys (add Examples.heap [VString "a"; VObject 0] Examples.mute).1.
Proof.
  split; [by vm_compute |].
  apply (bool_decide_unpack _). by vm_compute.
Qed.

(** C8, amended.  When [add] or [delete] is given an object that is not
    iterable, the normalisation raises a [TypeError] with the message
    "Object is not iterable".  The normalisation of all the arguments
    comes before the first key is added or removed, so the instance is
    left exactly as it was. *)
Theorem not_iterable_leaves_instance (h : Heap) (args : list Value)
    (r : nat) (w : World) :
  VObject r ∈ args → h !! r = Some Plain →
  add h args w = (w, Throw (TypeError "Object is not iterable"))
  ∧ delete h args w = (w, Throw (TypeError "Object is not iterable")).
Proof.
  intros Hin Hplain. unfold add, delete, rest_array.
  by rewrite (normaliseKeys_rest_plain h args r) by done.
Qed.

Lemma not_iterable_leaves_instance_witness :
  add Examples.heap [VString "a"; VObject 0] Examples.observing
  = (Examples.observing, Throw (TypeError "Object is not iterable"))
  ∧ delete Examples.heap [VString "x"; VObject 0] Examples.observing
    = (Examples.observing, Throw (TypeError "Object is not iterable")).
Proof.
  assert (VObject 0 ∈ [VString "a"; VObject 0]) as Ha by set_solver.
  assert (VObject 0 ∈ [VString "x"; VObject 0]) as Hx by set_solver.
  split.
  - exact (proj1 (not_iterable_leaves_instance Examples.heap _ 0
                    Examples.observing Ha eq_refl)).
  - exact (proj2 (not_iterable_leaves_instance Examples.heap _ 0
                    Examples.observing Hx eq_refl)).
Defined.

End KeyListFacts.

(** ** AtomLiveView *)

Module LiveViewFacts.
Import AtomLiveView.

Lemma emit_fields (name : string) (v : View) :
  view_id (emit name v) = view_id v
  ∧ renderState (emit name v) = renderState v
  ∧ history (emit name v) = history v
  ∧ offsets (emit name v) = offsets v
  ∧ scrollLeft (emit name v) = scrollLeft v
  ∧ scrollTop (emit name v) = scrollTop v
  ∧ renders (emit name v) = renders v
  ∧ awaiting (emit name v) = awaiting v
  ∧ (emitted (emit name v) = emitted v
     ∨ emitted (emit name v) = name :: emitted v).
Proof. unfold emit. destruct (emitter v); simpl; split_and!; auto. Qed.

Lemma handleRender_busy (panes : list Pane) (v : View) :
  renderState v = "rendering" ∨ renderState v = "pending" →
  handleRender panes v = v.
Proof. unfold handleRender. by intros [-> | ->]. Qed.

Lemma handleRender_hidden (panes : list Pane) (v : View) :
  renderState v ≠ "rendering" → renderState v ≠ "pending" →
  getVisible panes v = false →
  handleRender panes v = emit "did-queue-render" (set_renderState "pending" v).
Proof.
  intros H1 H2 Hv. unfold handleRender.
  rewrite !bool_decide_eq_false_2 by done. simpl.
  replace (getVisible panes v) with false. done.
Qed.

Lemma handleRender_visible (panes : list Pane) (v : View) :
  renderState v ≠ "rendering" → renderState v ≠ "pending" →
  getVisible panes v = true →
  handleRender panes v
  = call_render (emit "did-render-started" (set_renderState "rendering" v)).
Proof.
  intros H1 H2 Hv. unfold handleRender.
  rewrite !bool_decide_eq_false_2 by done. simpl. by rewrite Hv.
Qed.

Lemma handleRender_state (panes : list Pane) (v : View) :
  renderState (handleRender panes v) ∈ render_states.
Proof.
  unfold handleRender, render_states.
  destruct (bool_decide (renderState v = "rendering")) eqn:H1; simpl.
  { apply bool_decide_eq_true in H1. rewrite H1. set_solver. }
  destruct (bool_decide (renderState v = "pending")) eqn:H2; simpl.
  { apply bool_decide_eq_true in H2. rewrite H2. set_solver. }
  destruct (getVisible panes v); simpl.
  - destruct (emit_fields "did-render-started"
                (set_renderState "rendering" v)) as (_ & -> & _).
    simpl. set_solver.
  - destruct (emit_fields "did-queue-render"
                (set_renderState "pending" v)) as (_ & -> & _).
    simpl. set_solver.
Qed.

(** A step leaves [renderState] alone or sets it to one of the four. *)
Lemma step_state (v : View) (e : Event) :
  renderState (step v e) = renderState v
  ∨ renderState (step v e) ∈ render_states.
Proof.
  destruct e as [panes|fulfilled|item panes|]; simpl.
  - right. apply handleRender_state.
  - unfold settle. destruct (awaiting v); [| by left].
    destruct fulfilled; [| by left]. right. simpl.
    destruct (emit_fields "did-render-finish"
                (set_renderState "finished" (stop_awaiting v)))
      as (_ & -> & _).
    simpl. unfold render_states. set_solver.
  - unfold onActivePaneItem. destruct (_ && _); [| by left].
    right. apply handleRender_state.
  - unfold destroy. destruct (emitter v) eqn:He; [| by left]. left. simpl.
    by destruct (emit_fields "did-destroy" v) as (_ & -> & _).
Qed.

Lemma run_app (v : View) (es1 es2 : list Event) :
  run v (es1 ++ es2) = run (run v es1) es2.
Proof. apply foldl_app. Qed.

Lemma run_state (S : list string) (v : View) (es : list Event) :
  render_states ⊆ S → renderState v ∈ S → renderState (run v es) ∈ S.
Proof.
  intros HS. revert v. induction es as [|e es IH]; intros v Hv; [done |].
  simpl. apply IH. destruct (step_state v e) as [-> | H]; [done |].
  by apply HS.
Qed.

(** C4, as it is stated, does not hold: a new view has the empty string
    as its [renderState], which is none of the four. *)
Lemma initial_render_state_is_empty :
  renderState ViewExamples.view = ""
  ∧ renderState ViewExamples.view ≠ "none"
  ∧ renderState ViewExamples.view ∉ render_states.
Proof.
  split; [done |]. split; [done |].
  apply (bool_decide_unpack _). by vm_compute.
Qed.

(** C4, amended.  For every AtomLiveView instance, [renderState] is
    initially the empty string; after any sequence of render requests,
    render completions, changes of the active pane item and a destroy,
    it is the empty string or one of "none", "rendering", "pending",
    "finished"; and once a render request has been made it is one of
    these four. *)
Theorem render_state_values (id : nat) (state_offsets : option (list Z))
    (es es' : list Event) (panes : list Pane) :
  let v := constructor id state_offsets in
  renderState v = ""
  ∧ renderState (run v es) ∈ "" :: render_states
  ∧ renderState (run v (es ++ ERender panes :: es')) ∈ render_states.
Proof.
  intros v. split_and!.
  - done.
  - apply run_state; set_solver.
  - rewrite run_app. simpl. apply run_state; [done |].
    apply handleRender_state.
Qed.

(** C5. A render request for a view that is not visible, and that is
    neither rendering nor pending, sets [renderState] to "pending" and
    does not call the render procedure.  When the view then becomes the
    active item of a visible pane, the state is set to "none", the
    request is made again, and the state goes through "rendering" to
    "finished" when the render ends; the render procedure is called
    exactly once.  A render request that finds the state "rendering" or
    "pending" changes nothing. *)
Theorem pending_render_is_flushed (v : View) (hidden shown : list Pane) :
  getVisible hidden v = false → getVisible shown v = true →
  renderState v ≠ "rendering" → renderState v ≠ "pending" →
  let v1 := handleRender hidden v in
  let v2 := onActivePaneItem (Some (view_id v)) shown v1 in
  let v3 := settle true v2 in
  renderState v1 = "pending" ∧ renders v1 = renders v
  ∧ history v1 = "pending" :: history v
  ∧ renderState v2 = "rendering"
  ∧ history v2 = "rendering" :: "none" :: history v1
  ∧ renders v2 = S (renders v)
  ∧ renderState v3 = "finished"
  ∧ history v3 = "finished" :: "rendering" :: "none" :: history v1
  ∧ renders v3 = S (renders v)
  ∧ (∀ panes u, renderState u = "rendering" ∨ renderState u = "pending" →
                handleRender panes u = u).
Proof.
  intros Hh Hs Hr Hp v1 v2 v3.
  assert (v1 = emit "did-queue-render" (set_renderState "pending" v)) as E1
    by (by apply handleRender_hidden).
  destruct (emit_fields "did-queue-render" (set_renderState "pending" v))
    as (Hid1 & Hst1 & Hh1 & _ & _ & _ & Hn1 & Ha1 & _).
  rewrite <- E1 in *. simpl in *.
  assert (v2 = call_render (emit "did-render-started"
                (set_renderState "rendering" (set_renderState "none" v1))))
    as E2.
  { subst v2. unfold onActivePaneItem. rewrite Hid1, Hst1.
    rewrite !bool_decide_eq_true_2 by done. simpl.
    apply handleRender_visible; simpl; try done.
    unfold getVisible in *. simpl. by rewrite Hid1. }
  destruct (emit_fields "did-render-started"
              (set_renderState "rendering" (set_renderState "none" v1)))
    as (_ & Hst2 & Hh2 & _ & _ & _ & Hn2 & _).
  simpl in *.
  assert (v3 = restoreOffsets (emit "did-render-finish"
                (set_renderState "finished" (stop_awaiting v2)))) as E3.
  { subst v3. unfold settle. by rewrite E2. }
  destruct (emit_fields "did-render-finish"
              (set_renderState "finished" (stop_awaiting v2)))
    as (_ & Hst3 & Hh3 & _ & _ & _ & Hn3 & _).
  simpl in *.
  split_and!; try done.
  - by rewrite E2.
  - rewrite E2. simpl. by rewrite Hh2.
  - rewrite E2. simpl. by rewrite Hn2, Hn1.
  - rewrite E3. simpl. by rewrite Hst3.
  - rewrite E3. simpl. rewrite Hh3, E2. simpl. by rewrite Hh2.
  - rewrite E3. simpl. rewrite Hn3, E2. simpl. by rewrite Hn2, Hn1.
  - intros panes u. apply handleRender_busy.
Qed.

(** The theorem at the example view, first hidden and then shown. *)
Lemma pending_render_is_flushed_witness :
  let v1 := handleRender ViewExamples.hidden ViewExamples.view in
  let v3 := settle true (onActivePaneItem (Some 3) ViewExamples.shown v1) in
  renderState v1 = "pending" ∧ renders v1 = 0
  ∧ renderState v3 = "finished"
  ∧ history v3 = ["finished"; "rendering"; "none"; "pending"]
  ∧ renders v3 = 1.
Proof.
  assert (renderState ViewExamples.view ≠ "rendering") as Hr by done.
  assert (renderState ViewExamples.view ≠ "pending") as Hp by done.
  destruct (pending_render_is_flushed ViewExamples.view ViewExamples.hidden
              ViewExamples.shown eq_refl eq_refl Hr Hp)
    as (H1 & H2 & H3 & _ & _ & _ & H7 & H8 & H9 & _).
  cbv zeta. split; [exact H1 |]. split; [exact H2 |].
  split; [exact H7 |]. split; [| exact H9].
  etransitivity; [exact H8 |]. by rewrite H3.
Defined.

(** *** A render that fails *)

Lemma no_render_refl (v : View) : no_render v v.
Proof.
  unfold no_render. split_and!; try done.
  exists []. split_and!; [done | |]; apply not_elem_of_nil.
Qed.

Lemma wedged_step (v0 v : View) (e : Event) :
  wedged v → no_render v0 v →
  wedged (step v e) ∧ no_render v0 (step v e).
Proof.
  intros [Hst Haw] Hno. destruct e as [panes|fulfilled|item panes|]; simpl.
  - by rewrite handleRender_busy by (by left).
  - unfold settle. by rewrite Haw.
  - unfold onActivePaneItem. rewrite Hst.
    by rewrite (bool_decide_eq_false_2 ("rendering" = "pending")),
      andb_false_r by done.
  - unfold destroy, emit. destruct (emitter v) eqn:He; [| done]. simpl.
    split; [done |].
    destruct Hno as (Hn & Ho & Hl & Ht & l & Hem & Hs & Hf).
    unfold no_render. simpl. split_and!; try done.
    exists ("did-destroy" :: l). rewrite Hem. split_and!; [done | |];
      rewrite not_elem_of_cons; by split.
Qed.

Lemma wedged_run (v0 : View) (es : list Event) :
  ∀ v, wedged v → no_render v0 v →
       wedged (run v es) ∧ no_render v0 (run v es).
Proof.
  induction es as [|e es IH]; intros v Hw Hn; [done |].
  simpl. destruct (wedged_step v0 v e Hw Hn) as [Hw' Hn']. by apply IH.
Qed.

(** C10. If the render procedure throws or rejects while [renderState]
    is "rendering", the state stays "rendering" whatever happens next:
    "did-render-finish" is never emitted, [restoreOffsets] never runs
    (offsets and scroll position stay as they were), the render
    procedure is never called again, and every later [handleRender]
    returns at once, leaving the view as it is. *)
Theorem failed_render_wedges (v : View) (es : list Event) :
  renderState v = "rendering" →
  let v' := run (settle false v) es in
  renderState v' = "rendering"
  ∧ renders v' = renders v
  ∧ offsets v' = offsets v
  ∧ scrollLeft v' = scrollLeft v ∧ scrollTop v' = scrollTop v
  ∧ (∃ l, emitted v' = (l ++ emitted v)
          ∧ ("did-render-started" ∉ l) ∧ ("did-render-finish" ∉ l))
  ∧ (∀ panes, handleRender panes v' = v').
Proof.
  intros Hst v'.
  assert (wedged (settle false v) ∧ no_render v (settle false v))
    as [Hw Hn].
  { unfold settle. destruct (awaiting v) eqn:Ha.
    - split; [done |]. unfold no_render. simpl. split_and!; try done.
      exists []. split_and!; [done | |]; apply not_elem_of_nil.
    - split; [done | apply no_render_refl]. }
  destruct (wedged_run v es _ Hw Hn)
    as [[Hst' _] (Hr & Ho & Hl & Ht & Hem)].
  split_and!; try done.
  intros panes. apply handleRender_busy. by left.
Qed.

(** The theorem at the example view whose first render fails, followed
    by a render request, a change of the active item, and the late
    settling of a promise. *)
Lemma failed_render_wedges_witness :
  let v' := run (settle false ViewExamples.rendering)
              [ERender ViewExamples.shown;
               EActive (Some 3) ViewExamples.shown; ESettle true] in
  renderState v' = "rendering" ∧ renders v' = 1
  ∧ offsets v' = Some [5; 7]%Z.
Proof.
  destruct (failed_render_wedges ViewExamples.rendering
              [ERender ViewExamples.shown;
               EActive (Some 3) ViewExamples.shown; ESettle true] eq_refl)
    as (H1 & H2 & H3 & _).
  cbv zeta. split; [exact H1 |]. split; [exact H2 | exact H3].
Defined.

End LiveViewFacts.

(** * Further properties *)

(** ** More on [normaliseKeys], [add] and [delete] *)

Module KeyListExtras.
Import JsString Normalise StringFacts NormaliseFacts ObservedKeyList
  KeyListFacts.

(** X1. On arguments made of primitive values, plain objects and
    arrays, [normaliseKeys] ends, also when arrays hold themselves or
    one another: the set of the objects met bounds the recursion, so
    the bound on its depth is never used up and [add] and [delete]
    return or raise.  The iterable objects of a heap are those whose
    iteration is a finite list, as that of an array is; an iterator that
    never ends, or one that makes a new iterable at every step, is not
    among them. *)
Theorem normaliseKeys_terminates (h : Heap) (input : Value)
    (args : list Value) (w : World) :
  normaliseKeys h input ≠ OutOfFuel
  ∧ (add h args w).2 ≠ OutOfFuel
  ∧ (delete h args w).2 ≠ OutOfFuel.
Proof.
  split; [apply normaliseKeys_total |].
  pose proof (normaliseKeys_total (h ++ [Iterable args])
                (VObject (length h))) as Hrest.
  unfold add, delete, rest_array.
  by destruct (normaliseKeys _ _).
Qed.

(** *** The keys that come out *)

Lemma split_from_no_space (in_ws : bool) (s : string) :
  Forall (λ piece, no_space piece = true) (split_from in_ws s).
Proof.
  revert in_ws. induction s as [|c s IH]; intros in_ws; simpl.
  - by repeat constructor.
  - destruct (is_space c) eqn:Hc.
    + destruct in_ws; [apply IH |]. constructor; [done | apply IH].
    + specialize (IH false). destruct (split_from false s) as [|p ps].
      * repeat constructor. simpl. by rewrite Hc.
      * inversion IH as [|? ? Hp Hps]; subst. constructor; [| done].
        simpl. by rewrite Hc.
Qed.

Lemma loop_no_space
    (rec : Value → gset nat → Outcome (list string * gset nat))
    (elems : list Value) :
  (∀ v refs out refs', rec v refs = Return (out, refs') →
     Forall (λ k, no_space k = true) out) →
  ∀ refs out out' refs',
    Forall (λ k, no_space k = true) out →
    normaliseKeys_loop rec elems refs out = Return (out', refs') →
    Forall (λ k, no_space k = true) out'.
Proof.
  intros Hrec. induction elems as [|v rest IH]; intros refs out out' refs' Hout;
    simpl.
  { by intros [= <- _]. }
  destruct (negb (truthy v)); [by apply IH |].
  destruct v as [| |b|z|s|f src|r]; simpl; try by apply IH.
  - apply IH. apply Forall_app. split; [done | apply split_from_no_space].
  - destruct (decide (r ∈ refs)); [by apply IH |].
    destruct (rec (VObject r) ({[r]} ∪ refs)) as [[sub refs'']| |] eqn:Hcall;
      [| done | done].
    apply IH. apply Forall_app. split; [done | by eapply Hrec].
Qed.

Lemma fuel_no_space (n : nat) (h : Heap) :
  ∀ v refs out refs',
    normaliseKeys_fuel n h v refs = Return (out, refs') →
    Forall (λ k, no_space k = true) out.
Proof.
  induction n as [|n IH]; intros v refs out refs'; [done |].
  rewrite normaliseKeys_fuel_S.
  destruct v as [| |b|z|s|f src|r]; cbn [typeof]; try done;
    try (by apply loop_no_space).
  destruct (h !! r) as [[elems|]|]; [| done | done].
  by apply loop_no_space.
Qed.

Lemma foldl_add_key_keys (ks : list string) :
  ∀ w, keys (foldl add_key w ks) = list_to_set ks ∪ keys w.
Proof.
  induction ks as [|k ks IH]; intros w; simpl; [set_solver |].
  rewrite IH, add_key_keys. set_solver.
Qed.

(** X2. No key that [normaliseKeys] gives out holds white space, and so
    [add] never puts a name with white space into the set. *)
Theorem keys_are_free_of_space (h : Heap) (input : Value) (ks : list string)
    (args : list Value) (w w' : World) :
  (normaliseKeys h input = Return ks → Forall (λ k, no_space k = true) ks)
  ∧ (add h args w = (w', Return ()) →
     ∀ k, k ∈ keys w' → k ∈ keys w ∨ no_space k = true).
Proof.
  assert (∀ h' v ks', normaliseKeys h' v = Return ks' →
                      Forall (λ k, no_space k = true) ks') as Hnorm.
  { intros h' v ks'. unfold normaliseKeys.
    destruct (normaliseKeys_fuel _ h' v ∅) as [[out refs']| |] eqn:Hf;
      simpl; [| done | done].
    intros [= <-]. by eapply fuel_no_space. }
  split; [apply Hnorm |].
  unfold add, rest_array.
  destruct (normaliseKeys _ _) as [ks'| |] eqn:Hn; [| done | done].
  intros [= <-] k. rewrite foldl_add_key_keys, elem_of_union.
  intros [Hk|Hk]; [right | by left].
  apply Hnorm in Hn. rewrite Forall_forall in Hn. apply Hn.
  by apply elem_of_list_to_set in Hk.
Qed.

Lemma keys_are_free_of_space_witness :
  Forall (λ k, no_space k = true) ["x"; "y"]
  ∧ ∀ k, k ∈ keys (add [] [VString " x  y "] Examples.mute).1 →
         k ∈ keys Examples.mute ∨ no_space k = true.
Proof.
  destruct (keys_are_free_of_space [] (VString " x  y ") ["x"; "y"]
              [VString " x  y "] Examples.mute
              (add [] [VString " x  y "] Examples.mute).1) as [H1 H2].
  split; [exact (H1 eq_refl) | exact (H2 eq_refl)].
Defined.

(** *** Objects met twice *)







(** *** Adding twice *)

Lemma add_key_present (w : World) (k : string) :
  k ∈ keys w → add_key w k = w.
Proof. intros Hk. unfold add_key. by rewrite decide_True. Qed.

Lemma foldl_add_key_present (ks : list string) (w : World) :
  (∀ k, k ∈ ks → k ∈ keys w) → foldl add_key w ks = w.
Proof.
  induction ks as [|k ks IH]; intros Hks; simpl; [done |].
  rewrite add_key_present by (apply Hks; set_solver).
  apply IH. intros k' Hk'. apply Hks. set_solver.
Qed.

(** X4. A key that is in the set already is left alone, with its
    subscription; so [add] with the same arguments a second time changes
    nothing at all, whatever the arguments are. *)
Theorem add_is_idempotent (h : Heap) (args : list Value) (w : World) :
  (∀ k, k ∈ keys w → add_key w k = w)
  ∧ add h args (add h args w).1 = add h args w.
Proof.
  split; [intros k; apply add_key_present |].
  unfold add, rest_array.
  destruct (normaliseKeys _ _) as [ks| |] eqn:Hn; simpl; rewrite ?Hn; try done.
  f_equal. apply foldl_add_key_present. intros k Hk.
  rewrite foldl_add_key_keys. apply elem_of_union. left.
  by apply elem_of_list_to_set.
Qed.

(** *** The set and the subscriptions *)

(** X5. In every world that an instance can be in, the store is in use,
    the keys of the store are the keys of the set, every key of the set
    has exactly one live subscription, and every live subscription is
    for a key of the set. *)
Theorem subscriptions_match_keys (w : World) :
  Reachable w →
  disposed (disposables w) = false
  ∧ dom (md_map (disposables w)) = keys w
  ∧ (∀ k, k ∈ keys w →
       ∃ d, observers w !! d = Some k
            ∧ ∀ d', observers w !! d' = Some k → d' = d)
  ∧ (∀ d k, observers w !! d = Some k → k ∈ keys w).
Proof.
  intros Hreach. pose proof (reachable_inv w Hreach) as HI.
  pose proof (inv_dom w HI) as Hdom'.
  destruct HI as [_ (Hd & Hdom & Hone & Hlive & _)].
  split_and!; try done.
  - intros k [ds Hds]%Hdom. destruct (Hone _ _ Hds) as (d & -> & Ho).
    exists d. split; [done |]. intros d' Ho'. apply Hlive in Ho'.
    congruence.
  - intros d k Ho. apply Hdom. apply Hlive in Ho. eauto.
Qed.

Lemma subscriptions_match_keys_witness :
  dom (md_map (disposables Examples.observing)) = keys Examples.observing
  ∧ ∃ d, observers Examples.observing !! d = Some "x".
Proof.
  assert (Reachable Examples.observing) as Hreach.
  { apply (reach_step _ (EAdd [] [VString "x"])).
    by apply (reach_new [] 0 Examples.fn []). }
  destruct (subscriptions_match_keys Examples.observing Hreach)
    as (_ & Hdom & Hone & _).
  split; [exact Hdom |].
  assert ("x" ∈ keys Examples.observing) as Hx by by_compute.
  destruct (Hone "x" Hx) as (d & Hd & _). by exists d.
Defined.

(** *** Lists of key names as arguments *)

Lemma loop_valid_keys
    (rec : Value → gset nat → Outcome (list string * gset nat))
    (ks : list string) :
  Forall valid_key ks →
  ∀ refs out,
    normaliseKeys_loop rec (VString <$> ks) refs out = Return (out ++ ks, refs).
Proof.
  induction 1 as [|k ks Hk Hks IH]; intros refs out; simpl.
  - by rewrite app_nil_r.
  - change (normaliseKeys_loop rec (VString k :: (VString <$> ks)) refs out
            = Return (out ++ k :: ks, refs)).
    rewrite loop_string by (by destruct Hk).
    rewrite IH, split_key by done. by rewrite <- app_assoc.
Qed.

Lemma add_valid_keys (h : Heap) (ks : list string) (w : World) :
  Forall valid_key ks →
  add h (VString <$> ks) w = (foldl add_key w ks, Return ()).
Proof.
  intros Hks. eapply add_normalised. by rewrite loop_valid_keys.
Qed.

Lemma delete_valid_keys (h : Heap) (ks : list string) (w : World) :
  Forall valid_key ks →
  delete h (VString <$> ks) w = (foldl delete_key w ks, Return ()).
Proof.
  intros Hks. unfold delete, rest_array.
  by rewrite normaliseKeys_rest, loop_valid_keys.
Qed.

Lemma add_one_key (h : Heap) (k : string) (w : World) :
  valid_key k → add h [VString k] w = (add_key w k, Return ()).
Proof. intros Hk. apply (add_valid_keys h [k]). by constructor. Qed.

Lemma delete_one_key (h : Heap) (k : string) (w : World) :
  valid_key k → delete h [VString k] w = (delete_key w k, Return ()).
Proof. intros Hk. apply (delete_valid_keys h [k]). by constructor. Qed.

(** *** Removing keys *)

Lemma config_change_unobserved (key : string) (w : World) :
  Inv w → key ∉ keys w → config_change key w = w.
Proof.
  intros [_ (_ & Hdom & _ & Hlive & _)] Hkey. unfold config_change.
  assert (filter (λ kv : nat * string, kv.2 = key) (observers w) = ∅) as ->.
  { apply map_empty. intros d.
    destruct (filter _ (observers w) !! d) as [k|] eqn:Hf; [| done].
    apply map_lookup_filter_Some in Hf as [Ho Hk]. simpl in Hk. subst k.
    destruct Hkey. apply Hdom. apply Hlive in Ho. eauto. }
  by rewrite map_size_empty.
Qed.

Lemma delete_key_keys (w : World) (k : string) :
  keys (delete_key w k) = keys w ∖ {[k]}.
Proof. unfold delete_key. simpl. by destruct (md_dispose_key _ _ _). Qed.

Lemma delete_key_observers (w : World) (k : string) :
  Inv w →
  ∀ d k', k' ≠ k →
    observers (delete_key w k) !! d = Some k' ↔ observers w !! d = Some k'.
Proof.
  intros [_ (Hd & _ & Hone & _)] d k' Hne.
  unfold delete_key, md_dispose_key. simpl. rewrite Hd.
  destruct (md_map (disposables w) !! k) as [ds|] eqn:Hk; simpl; [| done].
  destruct (Hone _ _ Hk) as (d0 & -> & Ho). simpl.
  rewrite lookup_delete. case_decide; [| done]. subst.
  split; [done | congruence].
Qed.

(** X6. After [delete] of a key name the key is out of the set, no live
    subscription is left for it, and a later change of that key does not
    reach the instance; the subscriptions of the other keys are as they
    were. *)
Theorem delete_stops_observation (h : Heap) (k : string) (w : World) :
  Reachable w → valid_key k →
  let w' := (delete h [VString k] w).1 in
  (delete h [VString k] w).2 = Return ()
  ∧ keys w' = keys w ∖ {[k]}
  ∧ (∀ d, observers w' !! d ≠ Some k)
  ∧ config_change k w' = w'
  ∧ (∀ d k', k' ≠ k →
       observers w' !! d = Some k' ↔ observers w !! d = Some k').
Proof.
  intros Hreach Hk w'. subst w'.
  pose proof (reachable_inv w Hreach) as HI.
  rewrite delete_one_key by done. simpl.
  pose proof (delete_key_inv w k HI) as HI'.
  assert (k ∉ keys (delete_key w k)) as Hout
    by (rewrite delete_key_keys; set_solver).
  split_and!.
  - done.
  - apply delete_key_keys.
  - intros d Ho. destruct HI' as [_ (_ & Hdom & _ & Hlive & _)].
    apply Hout, Hdom. apply Hlive in Ho. eauto.
  - by apply config_change_unobserved.
  - by apply delete_key_observers.
Qed.

Lemma delete_stops_observation_witness :
  keys (delete [] [VString "x"] Examples.observing).1 = ∅
  ∧ config_change "x" (delete [] [VString "x"] Examples.observing).1
    = (delete [] [VString "x"] Examples.observing).1.
Proof.
  assert (Reachable Examples.observing) as Hreach.
  { apply (reach_step _ (EAdd [] [VString "x"])).
    by apply (reach_new [] 0 Examples.fn []). }
  assert (valid_key "x") as Hx by done.
  destruct (delete_stops_observation [] "x" Examples.observing Hreach Hx)
    as (_ & Hk & _ & Hc & _).
  split; [| exact Hc].
  etransitivity; [exact Hk |]. by vm_compute.
Defined.

Lemma delete_key_queue (w : World) (k : string) :
  ticks (delete_key w k) = ticks w
  ∧ callbackQueued (delete_key w k) = callbackQueued w
  ∧ log (delete_key w k) = log w ∧ callback (delete_key w k) = callback w.
Proof. unfold delete_key. simpl. by destruct (md_dispose_key _ _ _). Qed.

Lemma foldl_delete_key_queue (ks : list string) :
  ∀ w, ticks (foldl delete_key w ks) = ticks w
       ∧ callbackQueued (foldl delete_key w ks) = callbackQueued w
       ∧ log (foldl delete_key w ks) = log w
       ∧ callback (foldl delete_key w ks) = callback w.
Proof.
  induction ks as [|k ks IH]; intros w; simpl; [done |].
  destruct (IH (delete_key w k)) as (-> & -> & -> & ->).
  apply delete_key_queue.
Qed.

Lemma delete_queue (h : Heap) (args : list Value) (w : World) :
  ticks (delete h args w).1 = ticks w
  ∧ callbackQueued (delete h args w).1 = callbackQueued w
  ∧ log (delete h args w).1 = log w
  ∧ callback (delete h args w).1 = callback w.
Proof.
  unfold delete, rest_array.
  destruct (normaliseKeys _ _); simpl; try done.
  apply foldl_delete_key_queue.
Qed.

Lemma clear_queue (w : World) :
  ticks (clear w) = ticks w ∧ callbackQueued (clear w) = callbackQueued w
  ∧ log (clear w) = log w ∧ callback (clear w) = callback w
  ∧ self (clear w) = self w.
Proof. unfold clear. simpl. by destruct (md_dispose _ _). Qed.

(** X7. Removal is quiet: [delete] and [clear] neither schedule a
    dispatch nor cancel one, and they call nothing.  A dispatch that was
    waiting when the keys were cleared still runs and calls the
    callback. *)
Theorem removal_is_quiet (h : Heap) (args : list Value) (w : World) :
  let w1 := (delete h args w).1 in
  let w2 := clear w in
  (ticks w1 = ticks w ∧ callbackQueued w1 = callbackQueued w
   ∧ log w1 = log w ∧ callback w1 = callback w)
  ∧ (ticks w2 = ticks w ∧ callbackQueued w2 = callbackQueued w
     ∧ log w2 = log w ∧ callback w2 = callback w)
  ∧ (∀ n, ticks w = S n → typeof (callback w) = TFunction →
       log (tick w2)
       = Called {| callee := callback w; arguments := [];
                   this_value := self w |} :: log w).
Proof.
  intros w1 w2.
  destruct (clear_queue w) as (Ht & Hq & Hl & Hc & Hs).
  fold w2 in Ht, Hq, Hl, Hc, Hs.
  split; [| split; [done |]].
  - apply delete_queue.
  - intros n Hn Hfn. unfold tick, call_callback. rewrite Ht, Hn. simpl.
    by rewrite Hc, Hfn, Hl, Hs.
Qed.

Lemma removal_is_quiet_witness :
  ticks (clear Examples.observing) = 1
  ∧ log (tick (clear Examples.observing))
    = [Called {| callee := Examples.fn; arguments := []; this_value := 0 |}].
Proof.
  destruct (removal_is_quiet [] [] Examples.observing) as (_ & H2 & H3).
  split; [exact (proj1 H2) | exact (H3 0 eq_refl eq_refl)].
Defined.

Lemma delete_key_absent (w : World) (k : string) :
  Inv w → k ∉ keys w → delete_key w k = w.
Proof.
  intros [_ (Hd & Hdom & _)] Hk. unfold delete_key, md_dispose_key. simpl.
  rewrite Hd.
  assert (md_map (disposables w) !! k = None) as ->
    by (apply eq_None_not_Some; by rewrite <- Hdom).
  assert (keys w ∖ {[k]} = keys w) as -> by set_solver.
  by destruct w.
Qed.

(** X8. Key names that are not in the set can be deleted without any
    effect and without an error. *)
Theorem delete_of_absent_keys (h : Heap) (ks : list string) (w : World) :
  Reachable w → Forall valid_key ks → (∀ k, k ∈ ks → k ∉ keys w) →
  delete h (VString <$> ks) w = (w, Return ()).
Proof.
  intros Hreach Hks Hout. rewrite delete_valid_keys by done. f_equal.
  pose proof (reachable_inv w Hreach) as HI.
  induction ks as [|k ks IH]; simpl; [done |].
  rewrite delete_key_absent by (done || apply Hout; set_solver).
  apply IH; [by inversion Hks |]. intros k' Hk'. apply Hout. set_solver.
Qed.

Lemma delete_of_absent_keys_witness :
  delete [] [VString "y"; VString "z"] Examples.observing
  = (Examples.observing, Return ()).
Proof.
  assert (Reachable Examples.observing) as Hreach.
  { apply (reach_step _ (EAdd [] [VString "x"])).
    by apply (reach_new [] 0 Examples.fn []). }
  assert (Forall valid_key ["y"; "z"]) as Hks by (by repeat constructor).
  apply (delete_of_absent_keys [] ["y"; "z"] Examples.observing Hreach Hks).
  intros k Hk.
  apply elem_of_cons in Hk as [->|Hk]; [by_compute |].
  apply elem_of_cons in Hk as [->|Hk]; [by_compute |].
  by apply elem_of_nil in Hk.
Defined.

(** X9. Adding a new key and deleting it again gives back the set, the
    store and the live subscriptions that were there before. *)
Theorem add_then_delete (h h' : Heap) (k : string) (w : World) :
  Reachable w → valid_key k → k ∉ keys w →
  let w' := (delete h' [VString k] (add h [VString k] w).1).1 in
  keys w' = keys w
  ∧ md_map (disposables w') = md_map (disposables w)
  ∧ observers w' = observers w.
Proof.
  intros Hreach Hk Hout w'. subst w'.
  destruct (reachable_inv w Hreach)
    as [_ (Hd & Hdom & _ & _ & Hlt & _)].
  rewrite add_one_key by done. simpl.
  rewrite delete_one_key by done. simpl.
  assert (md_map (disposables w) !! k = None) as Hnone
    by (apply eq_None_not_Some; by rewrite <- Hdom).
  assert (observers w !! next_id w = None) as Hfresh.
  { apply eq_None_not_Some. intros Hs. apply Hlt in Hs. lia. }
  unfold add_key. rewrite decide_False by done.
  unfold config_observe. simpl.
  destruct (handler_fields (set_keys ({[k]} ∪ keys w) w))
    as (_ & Hk' & _ & Hds & Ho & Hn & _).
  unfold delete_key, md_dispose_key, md_add. simpl.
  rewrite Hds, Ho, Hn. simpl. rewrite Hd, Hnone. simpl.
  rewrite lookup_insert_eq. simpl.
  rewrite delete_insert_eq, delete_insert_eq by done.
  split_and!; [set_solver | by apply delete_id | by apply delete_id].
Qed.

Lemma add_then_delete_witness :
  keys (delete [] [VString "y"] (add [] [VString "y"] Examples.observing).1).1
  = keys Examples.observing.
Proof.
  assert (Reachable Examples.observing) as Hreach.
  { apply (reach_step _ (EAdd [] [VString "x"])).
    by apply (reach_new [] 0 Examples.fn []). }
  assert (valid_key "y") as Hy by done.
  assert ("y" ∉ keys Examples.observing) as Hout by by_compute.
  exact (proj1 (add_then_delete [] [] "y" Examples.observing Hreach Hy Hout)).
Defined.

(** *** Without a callback *)

Lemma add_key_silent (w : World) (k : string) :
  truthy (callback w) = false →
  ticks (add_key w k) = ticks w ∧ log (add_key w k) = log w
  ∧ callback (add_key w k) = callback w.
Proof.
  intros Ht. unfold add_key. case_decide; [done |].
  unfold config_observe. simpl. by rewrite handler_silent.
Qed.

Lemma foldl_add_key_silent (ks : list string) :
  ∀ w, truthy (callback w) = false →
       ticks (foldl add_key w ks) = ticks w
       ∧ log (foldl add_key w ks) = log w
       ∧ callback (foldl add_key w ks) = callback w.
Proof.
  induction ks as [|k ks IH]; intros w Ht; simpl; [done |].
  destruct (add_key_silent w k Ht) as (H1 & H2 & H3).
  destruct (IH (add_key w k)) as (-> & -> & ->); [by rewrite H3 | done].
Qed.

Lemma step_silent (w : World) (e : Event) :
  truthy (callback w) = false → ticks w = 0 → (∀ v, e ≠ EAssign v) →
  ticks (step w e) = 0 ∧ log (step w e) = log w
  ∧ callback (step w e) = callback w.
Proof.
  intros Ht H0 He. destruct e as [h args|h args| |v|key|]; simpl.
  - unfold add, rest_array. destruct (normaliseKeys _ _); simpl; try done.
    destruct (foldl_add_key_silent a w Ht) as (-> & -> & ->). done.
  - destruct (delete_queue h args w) as (-> & _ & -> & ->). done.
  - destruct (clear_queue w) as (-> & _ & -> & -> & _). done.
  - by destruct (He v).
  - destruct (config_change_cases key w) as [-> | ->]; [done |].
    by rewrite handler_silent.
  - unfold tick. by rewrite H0.
Qed.

(** X10. An instance whose callback is [null] (or any falsy value)
    observes in silence: as long as no callback is assigned, whatever is
    added, deleted, cleared or changed, no dispatch is ever scheduled and
    nothing is called. *)
Theorem silent_without_callback (w : World) (es : list Event) :
  truthy (callback w) = false → ticks w = 0 →
  Forall (λ e, ∀ v, e ≠ EAssign v) es →
  ticks (run w es) = 0 ∧ log (run w es) = log w
  ∧ callback (run w es) = callback w.
Proof.
  intros Ht H0 Hes. revert w Ht H0.
  induction Hes as [|e es He Hes IH]; intros w Ht H0; simpl; [done |].
  destruct (step_silent w e Ht H0 He) as (H1 & H2 & H3).
  destruct (IH (step w e)) as (-> & -> & ->); [by rewrite H3 | done | done].
Qed.

Lemma silent_without_callback_witness :
  ticks (run Examples.mute
           [EAdd [] [VString "x"]; EChange "x"; ETick; EClear]) = 0
  ∧ log (run Examples.mute
           [EAdd [] [VString "x"]; EChange "x"; ETick; EClear]) = [].
Proof.
  destruct (silent_without_callback Examples.mute
              [EAdd [] [VString "x"]; EChange "x"; ETick; EClear]
              eq_refl eq_refl) as (H1 & H2 & _).
  - by repeat constructor.
  - split; [exact H1 | exact H2].
Defined.

(** *** The first notification *)

Lemma add_key_keeps_queued (w : World) (k : string) :
  callbackQueued w = true → callbackQueued (add_key w k) = true.
Proof.
  intros Hq. unfold add_key. case_decide; [done |].
  unfold config_observe. simpl. by rewrite handler_queued.
Qed.

Lemma add_key_new_queues (w : World) (k : string) :
  truthy (callback w) = true → k ∉ keys w →
  callbackQueued (add_key w k) = true.
Proof.
  intros Ht Hk. destruct (callbackQueued w) eqn:Hq;
    [by apply add_key_keeps_queued |].
  unfold add_key. rewrite decide_False by done.
  unfold config_observe. simpl. by rewrite handler_idle.
Qed.

Lemma foldl_add_key_keeps_queued (ks : list string) :
  ∀ w, callbackQueued w = true → callbackQueued (foldl add_key w ks) = true.
Proof.
  induction ks as [|k ks IH]; intros w Hq; simpl; [done |].
  by apply IH, add_key_keeps_queued.
Qed.

Lemma foldl_add_key_queues (ks : list string) :
  ∀ w, truthy (callback w) = true → keys (foldl add_key w ks) ≠ keys w →
       callbackQueued (foldl add_key w ks) = true.
Proof.
  induction ks as [|k ks IH]; intros w Ht Hk; simpl in *; [done |].
  destruct (decide (k ∈ keys w)) as [Hin|Hout].
  - rewrite add_key_present in * by done. by apply IH.
  - by apply foldl_add_key_keeps_queued, add_key_new_queues.
Qed.

(** X11. When the callback is a function and a call of [add] puts at
    least one new key into the set, exactly one dispatch is waiting
    afterwards, however many keys were added: observing a key notifies
    at once, and the notifications of one call are coalesced. *)
Theorem add_schedules_one_dispatch (h : Heap) (args : list Value)
    (w : World) :
  Reachable w → typeof (callback w) = TFunction →
  keys (add h args w).1 ≠ keys w →
  callbackQueued (add h args w).1 = true ∧ ticks (add h args w).1 = 1.
Proof.
  intros Hreach Hfn Hnew.
  destruct (add_inv h args w (reachable_inv w Hreach)) as [Hq _].
  unfold QueueOk in Hq.
  assert (callbackQueued (add h args w).1 = true) as Hqd.
  { unfold add, rest_array in *.
    destruct (normaliseKeys _ _); simpl in *; try done.
    by apply foldl_add_key_queues; [apply function_truthy |]. }
  by rewrite Hqd in Hq.
Qed.

Lemma add_schedules_one_dispatch_witness :
  ticks (add [] [VString "y z"] Examples.idle).1 = 1.
Proof.
  assert (Reachable Examples.idle) as Hreach.
  { apply (reach_step _ ETick), (reach_step _ (EAdd [] [VString "x"])).
    by apply (reach_new [] 0 Examples.fn []). }
  assert (keys (add [] [VString "y z"] Examples.idle).1 ≠ keys Examples.idle)
    as Hnew by by_compute.
  exact (proj2 (add_schedules_one_dispatch [] [VString "y z"] Examples.idle
                  Hreach eq_refl Hnew)).
Defined.

(** X12. [new ObservedKeyList(fn, ...names)] with a function and at
    least one key name gives an instance that observes exactly these
    names, keeps the function as its callback, has called nothing yet
    and has one dispatch waiting. *)
Theorem constructor_with_keys (h : Heap) (id f : nat) (source : string)
    (ks : list string) :
  Forall valid_key ks → ks ≠ [] →
  ∃ w, constructor h id (VFunction f source) (VString <$> ks) = Return w
       ∧ self w = id ∧ keys w = list_to_set ks
       ∧ callback w = VFunction f source
       ∧ callbackQueued w = true ∧ ticks w = 1 ∧ log w = [].
Proof.
  intros Hks Hne. set (cb := VFunction f source).
  assert (constructor h id cb (VString <$> ks)
          = Return (foldl add_key (fresh id cb) ks)) as Hnew.
  { unfold constructor. simpl. rewrite add_valid_keys by done.
    by destruct ks. }
  exists (foldl add_key (fresh id cb) ks).
  assert (keys (foldl add_key (fresh id cb) ks) = list_to_set ks) as Hkeys.
  { rewrite foldl_add_key_keys. simpl. set_solver. }
  destruct (foldl_quiet add_key ks add_key_quiet (fresh id cb))
    as (Hs & Hc & Hl).
  assert (callbackQueued (foldl add_key (fresh id cb) ks) = true) as Hqd.
  { apply foldl_add_key_queues; [done |]. rewrite Hkeys. simpl.
    destruct ks as [|k ks']; [done |]. set_solver. }
  pose proof (constructor_inv h id cb _ _ Hnew) as [Hq _].
  unfold QueueOk in Hq. rewrite Hqd in Hq.
  by split_and!.
Qed.

Lemma constructor_with_keys_witness :
  ∃ w, constructor [] 0 (VFunction 0 "") [VString "x"; VString "y"] = Return w
       ∧ keys w = {[ "x"; "y" ]} ∧ ticks w = 1.
Proof.
  assert (Forall valid_key ["x"; "y"]) as Hks by (by repeat constructor).
  assert (["x"; "y"] ≠ []) as Hne by done.
  destruct (constructor_with_keys [] 0 0 "" ["x"; "y"] Hks Hne)
    as (w & Hnew & _ & Hkeys & _ & _ & Ht & _).
  exists w. split; [exact Hnew |]. split; [| exact Ht].
  rewrite Hkeys. by vm_compute.
Defined.

Lemma add_is_idempotent_witness :
  add_key Examples.observing "x" = Examples.observing
  ∧ add [] [VString "x y"] (add [] [VString "x y"] Examples.observing).1
    = add [] [VString "x y"] Examples.observing.
Proof.
  destruct (add_is_idempotent [] [VString "x y"] Examples.observing)
    as [Hkey Hadd].
  split; [| exact Hadd].
  apply Hkey. by_compute.
Defined.

End KeyListExtras.

(** ** More on the render life cycle *)

Module LiveViewExtras.
Import AtomLiveView LiveViewFacts.

(** Take the conditionals of a goal apart, one after the other. *)
Ltac split_ifs :=
  repeat match goal with
         | |- context [if ?c then _ else _] => destruct c eqn:?; simpl in *
         end.

Lemma handleRender_frame (panes : list Pane) (v : View) :
  view_id (handleRender panes v) = view_id v
  ∧ offsets (handleRender panes v) = offsets v
  ∧ scrollLeft (handleRender panes v) = scrollLeft v
  ∧ scrollTop (handleRender panes v) = scrollTop v
  ∧ emitter (handleRender panes v) = emitter v.
Proof.
  unfold handleRender, emit, call_render, set_renderState.
  simpl. by split_ifs.
Qed.

Lemma step_frame (v : View) (e : Event) :
  view_id (step v e) = view_id v
  ∧ (emitter v = false → emitter (step v e) = false
                         ∧ emitted (step v e) = emitted v)
  ∧ (offsets v = None → offsets (step v e) = None
                        ∧ scrollLeft (step v e) = scrollLeft v
                        ∧ scrollTop (step v e) = scrollTop v).
Proof.
  destruct e as [panes|fulfilled|item panes|]; simpl.
  - unfold handleRender, emit, call_render, set_renderState. simpl.
    split_and!; [by split_ifs | |]; intros H; rewrite ?H; by split_ifs.
  - unfold settle, restoreOffsets, emit, stop_awaiting, set_renderState.
    simpl.
    split_and!; [by split_ifs | |]; intros H; rewrite ?H; split_ifs;
      simpl; rewrite ?H; by simplify_eq.
  - unfold onActivePaneItem, handleRender, emit, call_render,
      set_renderState. simpl.
    split_and!; [by split_ifs | |]; intros H; rewrite ?H; by split_ifs.
  - unfold destroy, emit. simpl.
    split_and!; [by split_ifs | |]; intros H; rewrite ?H; by split_ifs.
Qed.

(** X13. The offsets of the last session are restored once:
    [restoreOffsets] a second time changes nothing, and once the offsets
    are used up no later event moves the scroll position. *)
Theorem offsets_are_restored_once (v : View) (es : list Event) :
  restoreOffsets (restoreOffsets v) = restoreOffsets v
  ∧ offsets (restoreOffsets v) = None
  ∧ (offsets v = None →
     offsets (run v es) = None
     ∧ scrollLeft (run v es) = scrollLeft v
     ∧ scrollTop (run v es) = scrollTop v).
Proof.
  split; [done |]. split; [done |].
  revert v. induction es as [|e es IH]; intros v Ho; simpl; [done |].
  destruct (step_frame v e) as (_ & _ & Hstep).
  destruct (Hstep Ho) as (Ho' & <- & <-). by apply IH.
Qed.

Lemma offsets_are_restored_once_witness :
  let v := run ViewExamples.rendering [ESettle true] in
  scrollLeft v = 5%Z
  ∧ scrollLeft (run v [ERender ViewExamples.shown; ESettle true]) = 5%Z.
Proof.
  cbv zeta. split; [reflexivity |].
  destruct (offsets_are_restored_once
              (run ViewExamples.rendering [ESettle true])
              [ERender ViewExamples.shown; ESettle true]) as (_ & _ & H).
  destruct (H eq_refl) as (_ & Hl & _). exact Hl.
Defined.

(** X14. [destroy] announces "did-destroy" once and silences the view:
    a second [destroy] changes nothing, and nothing that happens later
    is emitted. *)
Theorem destroy_is_final (v : View) (es : list Event) :
  destroy (destroy v) = destroy v
  ∧ (emitter v = true → emitted (destroy v) = "did-destroy" :: emitted v)
  ∧ emitter (run (destroy v) es) = false
  ∧ emitted (run (destroy v) es) = emitted (destroy v).
Proof.
  assert (emitter (destroy v) = false) as Hoff.
  { unfold destroy, emit. by destruct (emitter v) eqn:He. }
  split_and!.
  - unfold destroy at 1. by rewrite Hoff.
  - intros He. unfold destroy, emit. by rewrite He.
  - revert Hoff. generalize (destroy v). clear v.
    induction es as [|e es IH]; intros v Hoff; simpl; [done |].
    destruct (step_frame v e) as (_ & Hstep & _).
    apply IH. by apply Hstep.
  - revert Hoff. generalize (destroy v). clear v.
    induction es as [|e es IH]; intros v Hoff; simpl; [done |].
    destruct (step_frame v e) as (_ & Hstep & _).
    destruct (Hstep Hoff) as [Hoff' <-]. by apply IH.
Qed.

Lemma destroy_is_final_witness :
  emitted (destroy ViewExamples.rendering)
  = ["did-destroy"; "did-render-started"]
  ∧ emitted (run (destroy ViewExamples.rendering) [ESettle true])
    = ["did-destroy"; "did-render-started"].
Proof.
  destruct (destroy_is_final ViewExamples.rendering [ESettle true])
    as (_ & H1 & _ & H2).
  split; [exact (H1 eq_refl) |].
  etransitivity; [exact H2 | exact (H1 eq_refl)].
Defined.

(** *** One render at a time *)

Lemma handleRender_awaiting (panes : list Pane) (v : View) :
  (awaiting v = true → renderState v = "rendering") →
  awaiting (handleRender panes v) = true →
  renderState (handleRender panes v) = "rendering".
Proof.
  intros HJ.
  destruct (decide (renderState v = "rendering")) as [Hr|Hr].
  { by rewrite handleRender_busy by (by left). }
  destruct (decide (renderState v = "pending")) as [Hp|Hp].
  { by rewrite handleRender_busy by (by right). }
  destruct (getVisible panes v) eqn:Hv.
  - rewrite handleRender_visible by done. intros _. simpl.
    by destruct (emit_fields "did-render-started"
                   (set_renderState "rendering" v)) as (_ & -> & _).
  - rewrite handleRender_hidden by done.
    destruct (emit_fields "did-queue-render" (set_renderState "pending" v))
      as (_ & _ & _ & _ & _ & _ & _ & -> & _).
    simpl. intros Ha. by destruct Hr; apply HJ.
Qed.

Lemma awaiting_step (v : View) (e : Event) :
  (awaiting v = true → renderState v = "rendering") →
  awaiting (step v e) = true → renderState (step v e) = "rendering".
Proof.
  intros HJ. destruct e as [panes|fulfilled|item panes|]; simpl.
  - by apply handleRender_awaiting.
  - unfold settle. destruct (awaiting v) eqn:Ha; [| simpl; congruence].
    destruct fulfilled; [| by simpl]. simpl.
    by destruct (emit_fields "did-render-finish"
                   (set_renderState "finished" (stop_awaiting v)))
      as (_ & _ & _ & _ & _ & _ & _ & -> & _).
  - unfold onActivePaneItem.
    destruct (bool_decide (item = Some (view_id v))); simpl; [| done].
    destruct (bool_decide (renderState v = "pending")) eqn:Hp; [| done].
    apply bool_decide_eq_true in Hp.
    apply handleRender_awaiting. simpl. intros Ha.
    specialize (HJ Ha). congruence.
  - unfold destroy, emit. by destruct (emitter v).
Qed.

(** X15. Renders of one view never overlap: whenever a call of
    [handleRender] is waiting for [render()] to end, the state is
    "rendering", so a further render request and a change of the active
    pane item leave the view as it is and do not call [render()]. *)
Theorem renders_do_not_overlap (id : nat) (state_offsets : option (list Z))
    (es : list Event) (panes : list Pane) (item : option nat) :
  let v := run (constructor id state_offsets) es in
  awaiting v = true →
  renderState v = "rendering"
  ∧ handleRender panes v = v
  ∧ onActivePaneItem item panes v = v.
Proof.
  intros v Ha.
  assert (∀ es' u, (awaiting u = true → renderState u = "rendering") →
                   awaiting (run u es') = true →
                   renderState (run u es') = "rendering") as Hrun.
  { induction es' as [|e es' IH]; intros u Hu; simpl; [done |].
    apply IH. by apply awaiting_step. }
  assert (renderState v = "rendering") as Hst
    by (by apply Hrun; [| exact Ha]).
  split; [done |]. split.
  - apply handleRender_busy. by left.
  - unfold onActivePaneItem. rewrite Hst.
    by rewrite (bool_decide_eq_false_2 ("rendering" = "pending")),
      andb_false_r by done.
Qed.

Lemma renders_do_not_overlap_witness :
  handleRender ViewExamples.shown ViewExamples.rendering
  = ViewExamples.rendering.
Proof.
  destruct (renders_do_not_overlap 3 (Some [5; 7]%Z)
              [ERender ViewExamples.shown] ViewExamples.shown None eq_refl)
    as (_ & H & _).
  exact H.
Defined.

(** *** What is announced *)

Lemma paired_step (v : View) (e : Event) : paired v → paired (step v e).
Proof.
  unfold paired, unfinished. intros (H1 & H2 & H3).
  destruct (emitter v) eqn:He.
  - destruct (H3 eq_refl) as [Ha Hr]. clear H3.
    destruct (awaiting v) eqn:Haw.
    + specialize (Ha eq_refl). specialize (Hr Ha).
      destruct e as [panes|fulfilled|item panes|]; simpl.
      * rewrite handleRender_busy by auto. rewrite He, Haw. naive_solver.
      * unfold settle. rewrite Haw. destruct fulfilled.
        -- unfold restoreOffsets, emit, set_renderState, stop_awaiting.
           simpl. rewrite He. simpl. unfold occurrences in *.
           rewrite ?filter_cons_True, ?filter_cons_False by done.
           simpl. split_and!; [lia | lia |]. intros _. split; [done | lia].
        -- unfold stop_awaiting. simpl. rewrite He. naive_solver.
      * unfold onActivePaneItem. rewrite Hr.
        rewrite (bool_decide_eq_false_2 ("rendering" = "pending")) by done.
        rewrite andb_false_r, He, Haw. naive_solver.
      * unfold destroy, emit. rewrite He. simpl. rewrite ?He. simpl.
        unfold occurrences in *.
        rewrite ?filter_cons_True, ?filter_cons_False by done.
        split_and!; [lia | lia | done].
    + clear Ha.
      assert (∀ panes u, emitter u = true → awaiting u = false →
                renderState u ≠ "rendering" → renderState u ≠ "pending" →
                emitted u = emitted v →
                occurrences "did-render-started" (emitted v)
                - occurrences "did-render-finish" (emitted v) ≠ 1 →
                paired (handleRender panes u)) as Hfresh.
      { intros panes u Heu Hau Hu1 Hu2 Hem Hne.
        unfold paired, unfinished.
        destruct (getVisible panes u) eqn:Hv.
        - rewrite handleRender_visible by done.
          unfold call_render, emit, set_renderState. simpl. rewrite Heu.
          simpl. rewrite Hem. unfold occurrences in *.
          rewrite ?filter_cons_True, ?filter_cons_False by done.
          simpl. split_and!; [lia | lia |]. intros _. split; [lia | done].
        - rewrite handleRender_hidden by done.
          unfold emit, set_renderState. simpl. rewrite Heu. simpl.
          rewrite ?Heu, ?Hau, ?Hem. unfold occurrences in *.
          rewrite ?filter_cons_True, ?filter_cons_False by done.
          split_and!; [lia | lia |]. intros _. split; [done | lia]. }
      destruct e as [panes|fulfilled|item panes|]; simpl.
      * destruct (decide (renderState v = "rendering")) as [Hs|Hs].
        { rewrite handleRender_busy by auto. rewrite He, Haw. naive_solver. }
        destruct (decide (renderState v = "pending")) as [Hp|Hp].
        { rewrite handleRender_busy by auto. rewrite He, Haw. naive_solver. }
        apply (Hfresh panes v); try done. intros Hone. by apply Hs, Hr.
      * unfold settle. rewrite Haw, He, Haw. naive_solver.
      * unfold onActivePaneItem.
        destruct (bool_decide (item = Some (view_id v))
                  && bool_decide (renderState v = "pending")) eqn:Hc.
        -- apply andb_prop in Hc as [_ Hp%bool_decide_eq_true].
           apply (Hfresh panes (set_renderState "none" v)); try done.
           intros Hone. specialize (Hr Hone). congruence.
        -- rewrite He, Haw. naive_solver.
      * unfold destroy, emit. rewrite He. simpl. rewrite ?He. simpl.
        unfold occurrences in *.
        rewrite ?filter_cons_True, ?filter_cons_False by done.
        split_and!; [lia | lia | done].
  - assert (emitter (step v e) = false ∧ emitted (step v e) = emitted v)
      as [-> ->]; [| by split_and!].
    destruct e as [panes|fulfilled|item panes|]; simpl;
      unfold onActivePaneItem, handleRender, settle, destroy,
        restoreOffsets, emit, call_render, stop_awaiting, set_renderState;
      simpl; rewrite ?He; simpl; split_ifs; simpl; by rewrite ?He.
Qed.

(** X16. Whatever happens to a view, "did-render-finish" has been
    emitted at most as often as "did-render-started" and at most once
    less: a render that was announced is announced as finished at most
    once, and no render is announced before the one before it has been
    announced as finished.  While a view that still emits awaits
    [render()], one announced render is not finished. *)
Theorem render_events_are_paired (id : nat)
    (state_offsets : option (list Z)) (es : list Event) :
  let v := run (constructor id state_offsets) es in
  occurrences "did-render-finish" (emitted v)
  ≤ occurrences "did-render-started" (emitted v)
  ∧ occurrences "did-render-started" (emitted v)
    ≤ occurrences "did-render-finish" (emitted v) + 1
  ∧ (emitter v = true → awaiting v = true →
     occurrences "did-render-started" (emitted v)
     = occurrences "did-render-finish" (emitted v) + 1).
Proof.
  intros v.
  assert (∀ es' u, paired u → paired (run u es')) as Hrun.
  { induction es' as [|e es' IH]; intros u Hu; simpl; [done |].
    by apply IH, paired_step. }
  assert (paired v) as (H1 & H2 & H3).
  { apply Hrun. unfold paired, unfinished, occurrences. simpl.
    split_and!; [lia | lia | done]. }
  unfold unfinished in *. split_and!; [done | lia |].
  intros He Ha. destruct (H3 He) as [Hone _]. specialize (Hone Ha). lia.
Qed.

(** *** Rendering and visibility *)

Lemma handleRender_renders (panes : list Pane) (v : View) :
  renders (handleRender panes v) = renders v
  ∨ (getVisible panes v = true
     ∧ renders (handleRender panes v) = S (renders v)).
Proof.
  unfold handleRender, emit, call_render, set_renderState. simpl.
  split_ifs; auto.
Qed.

(** X17. [render()] is only ever called for a view that is visible at
    that moment: a step that calls it is a render request, or a change
    of the active pane item, made while the view is the active item of a
    live visible pane, and it calls [render()] once. *)
Theorem render_only_when_visible (v : View) (e : Event) :
  renders (step v e) ≠ renders v →
  ∃ panes, (e = ERender panes ∨ ∃ item, e = EActive item panes)
           ∧ getVisible panes v = true
           ∧ renders (step v e) = S (renders v).
Proof.
  destruct e as [panes|fulfilled|item panes|]; simpl; intros Hne.
  - destruct (handleRender_renders panes v) as [?|[? ?]]; [done |].
    exists panes. eauto.
  - destruct Hne. unfold settle, restoreOffsets, emit, stop_awaiting,
      set_renderState. simpl. by split_ifs.
  - unfold onActivePaneItem in *.
    destruct (_ && _); [| done].
    destruct (handleRender_renders panes (set_renderState "none" v))
      as [?|[? ?]]; [done |].
    exists panes. eauto.
  - destruct Hne. unfold destroy, emit. simpl. by split_ifs.
Qed.

Lemma render_only_when_visible_witness :
  ∃ panes, getVisible panes ViewExamples.view = true
           ∧ renders (step ViewExamples.view (ERender ViewExamples.shown)) = 1.
Proof.
  assert (renders (step ViewExamples.view (ERender ViewExamples.shown))
          ≠ renders ViewExamples.view) as Hne by done.
  destruct (render_only_when_visible ViewExamples.view
              (ERender ViewExamples.shown) Hne) as (panes & _ & Hv & Hr).
  exists panes. split; [exact Hv | exact Hr].
Defined.

(** X18. A queued render waits: while the state is "pending", render
    requests, settling promises and changes of the active pane item to
    other items leave it "pending" and do not call [render()]; only the
    view becoming the active pane item takes it out of that state. *)
Theorem pending_render_waits (v : View) (es : list Event) :
  renderState v = "pending" → awaiting v = false →
  Forall (λ e, ∀ panes, e ≠ EActive (Some (view_id v)) panes) es →
  renderState (run v es) = "pending" ∧ renders (run v es) = renders v.
Proof.
  intros Hp Ha Hes. revert v Hp Ha Hes.
  induction es as [|e es IH]; intros v Hp Ha Hes; simpl; [done |].
  inversion Hes as [|? ? He Hes']; subst.
  assert (renderState (step v e) = "pending" ∧ awaiting (step v e) = false
          ∧ renders (step v e) = renders v
          ∧ view_id (step v e) = view_id v) as (Hp' & Ha' & Hr' & Hid').
  { destruct e as [panes|fulfilled|item panes|]; simpl.
    - by rewrite handleRender_busy by (by right).
    - unfold settle. by rewrite Ha.
    - unfold onActivePaneItem.
      rewrite (bool_decide_eq_false_2 (item = Some (view_id v))); [done |].
      intros ->. by destruct (He panes).
    - unfold destroy, emit. by destruct (emitter v). }
  rewrite <- Hr'. apply IH; try done. by rewrite Hid'.
Qed.

Lemma pending_render_waits_witness :
  renderState (run (handleRender ViewExamples.hidden ViewExamples.view)
                 [ERender ViewExamples.shown;
                  EActive (Some 9) ViewExamples.shown]) = "pending".
Proof.
  assert (Forall (λ e, ∀ panes,
            e ≠ EActive
                  (Some (view_id (handleRender ViewExamples.hidden
                                    ViewExamples.view))) panes)
            [ERender ViewExamples.shown;
             EActive (Some 9) ViewExamples.shown]) as Hes
    by (by repeat constructor).
  exact (proj1 (pending_render_waits
                  (handleRender ViewExamples.hidden ViewExamples.view)
                  _ eq_refl eq_refl Hes)).
Defined.

End LiveViewExtras.

(** ** [lib/utils.js] *)

Module UtilsFacts.
Import AtomLiveView JsText Utils.

(** *** Numbers as strings *)

Lemma digits_no_percent (d : Decimal.uint) :
  no_percent (NilEmpty.string_of_uint d) = true.
Proof. induction d; simpl; by rewrite ?IHd. Qed.

Lemma number_string_no_percent (n : Z) :
  no_percent (ToString (VNumber n)) = true.
Proof.
  simpl. destruct (Z.to_int n) as [d|d]; simpl.
  - destruct d; try done; apply (digits_no_percent (_ d)).
  - destruct d; try done; apply (digits_no_percent (_ d)).
Qed.

Lemma number_string_not_empty (n : Z) : ToString (VNumber n) ≠ "".
Proof.
  simpl. destruct (Z.to_int n) as [d|d]; simpl; [| done]. by destruct d.
Qed.

Lemma to_int_not_nil (n : Z) :
  Z.to_int n ≠ Decimal.Pos Decimal.Nil ∧ Z.to_int n ≠ Decimal.Neg Decimal.Nil.
Proof.
  destruct n; simpl; split; try discriminate;
    intros [= H]; revert H; apply Unsigned.to_uint_nonnil.
Qed.

Lemma number_string_inj (n m : Z) :
  ToString (VNumber n) = ToString (VNumber m) → n = m.
Proof.
  simpl. intros H. apply to_int_inj.
  destruct (to_int_not_nil n) as [Hn1 Hn2], (to_int_not_nil m) as [Hm1 Hm2].
  pose proof (NilZero.isi _ Hn1 Hn2) as Ha.
  pose proof (NilZero.isi _ Hm1 Hm2) as Hb.
  rewrite H in Ha. congruence.
Qed.

(** *** [editorForId] *)

Lemma editorForId_Some (id : Value) (editors : list TextEditor)
    (e : TextEditor) :
  editorForId id editors = Some e →
  ∃ l1 l2, editors = l1 ++ e :: l2
           ∧ ToString (VNumber (editor_id e)) = ToString id
           ∧ ∀ e', e' ∈ l1 → ToString (VNumber (editor_id e')) ≠ ToString id.
Proof.
  induction editors as [|x editors IH]; cbn [editorForId]; [done |].
  case_bool_decide as Hx.
  - intros [= ->]. exists [], editors. split_and!; [done | done |].
    intros e' He'. by apply elem_of_nil in He'.
  - intros (l1 & l2 & -> & He & Hl1)%IH. exists (x :: l1), l2.
    split_and!; [done | done |].
    intros e' [->|He']%elem_of_cons; [congruence | by apply Hl1].
Qed.

Lemma editorForId_None (id : Value) (editors : list TextEditor) :
  editorForId id editors = None ↔
  ∀ e, e ∈ editors → ToString (VNumber (editor_id e)) ≠ ToString id.
Proof.
  induction editors as [|x editors IH]; cbn [editorForId].
  - split; [| done]. intros _ e He. by apply elem_of_nil in He.
  - case_bool_decide as Hx.
    + split; [done |]. intros H. destruct (H x); [set_solver | done].
    + rewrite IH. split.
      * intros H e [->|He]%elem_of_cons; [congruence | by apply H].
      * intros H e He. apply H. set_solver.
Qed.

Lemma editorForId_same_string (id id' : Value) (editors : list TextEditor) :
  ToString id' = ToString id →
  editorForId id' editors = editorForId id editors.
Proof.
  intros Hid. induction editors as [|x editors IH]; cbn [editorForId];
    [done |].
  by rewrite Hid, IH.
Qed.

(** X19. For an id that is no object, [editorForId] gives the first
    editor whose id, as a string, is the id asked for, as a string: what
    it gives is one of the editors and has that id, and no editor before
    it has; it gives nothing exactly when no editor has that id.  A
    number and the string of its digits find the same editor, and the
    id of that editor is this number. *)
Theorem editorForId_finds_first (id : Value) (editors : list TextEditor) :
  primitive id = true →
  (∀ e, editorForId id editors = Some e →
     e ∈ editors ∧ ToString (VNumber (editor_id e)) = ToString id
     ∧ ∃ l1 l2, editors = l1 ++ e :: l2
                ∧ ∀ e', e' ∈ l1 →
                    ToString (VNumber (editor_id e')) ≠ ToString id)
  ∧ (editorForId id editors = None ↔
     ∀ e, e ∈ editors → ToString (VNumber (editor_id e)) ≠ ToString id)
  ∧ (∀ n, editorForId (VString (ToString (VNumber n))) editors
          = editorForId (VNumber n) editors
          ∧ ∀ e, editorForId (VNumber n) editors = Some e → editor_id e = n).
Proof.
  intros _. split_and!.
  - intros e (l1 & l2 & -> & He & Hl1)%editorForId_Some.
    split_and!; [set_solver | done | eauto].
  - apply editorForId_None.
  - intros n. split; [by apply editorForId_same_string |].
    intros e (_ & _ & _ & He & _)%editorForId_Some.
    by apply number_string_inj.
Qed.

Lemma editorForId_finds_first_witness :
  let editors := [ {| editor_id := 7; editor_title := "a.md";
                      editor_path := VString "/a.md" |};
                   {| editor_id := 12; editor_title := "b.md";
                      editor_path := VString "/b.md" |} ] in
  editorForId (VString "12") editors = editorForId (VNumber 12) editors
  ∧ editorForId (VNumber 3) editors = None.
Proof.
  intros editors.
  destruct (editorForId_finds_first (VNumber 12) editors eq_refl)
    as (_ & _ & H12).
  destruct (editorForId_finds_first (VNumber 3) editors eq_refl)
    as (_ & H3 & _).
  split; [exact (proj1 (H12 12%Z)) |].
  apply H3. intros e He.
  apply elem_of_cons in He as [->|He]; [done |].
  apply elem_of_cons in He as [->|He]; [done |].
  by apply elem_of_nil in He.
Defined.





(** X21. An item is visible exactly when it is there, has an element,
    and is the active item of a visible pane that is alive.  So a pane
    that is not alive shows nothing, with no visible pane nothing is
    visible, and an item is visible among the panes of two lists when it
    is visible among those of one of them. *)
Theorem isItemVisible_iff (item : option Item) (visiblePanes : list Pane) :
  (isItemVisible item visiblePanes = true ↔
   ∃ i, item = Some i ∧ element i = true
        ∧ ∃ pane, pane ∈ visiblePanes ∧ alive pane = true
                  ∧ activeItem pane = Some (item_id i))
  ∧ (∀ morePanes,
       isItemVisible item (visiblePanes ++ morePanes)
       = isItemVisible item visiblePanes || isItemVisible item morePanes).
Proof.
  split.
  - unfold isItemVisible. destruct item as [i|].
    + destruct (element i) eqn:He; simpl.
      * rewrite existsb_exists. split.
        -- intros (pane & Hin & [Ha Hp]%andb_prop).
           exists i. split_and!; [done | done |]. exists pane.
           apply bool_decide_eq_true in Hp. by rewrite list_elem_of_In.
        -- intros (i' & [= <-] & _ & pane & Hin & Ha & Hp).
           exists pane. rewrite <- list_elem_of_In. split; [done |].
           by rewrite Ha, bool_decide_eq_true_2.
      * split; [done |]. intros (i' & [= <-] & He' & _). congruence.
    + split; [done |]. by intros (i' & ? & _).
  - intros morePanes. unfold isItemVisible. destruct item as [i|]; [| done].
    destruct (element i); simpl; [| done]. apply existsb_app.
Qed.

Lemma isItemVisible_iff_witness :
  isItemVisible (Some {| item_id := 3; element := true |})
    ViewExamples.shown = true
  ∧ isItemVisible (Some {| item_id := 3; element := true |}) [] ≠ true.
Proof.
  split.
  - apply (proj1 (isItemVisible_iff _ _)). eexists.
    split_and!; [done | done |].
    exists {| alive := true; activeItem := Some 3 |}.
    split_and!; [| done | done]. unfold ViewExamples.shown. set_solver.
  - intros H. apply (proj1 (isItemVisible_iff _ _)) in H
      as (i & _ & _ & pane & Hin & _).
    by apply elem_of_nil in Hin.
Defined.

End UtilsFacts.

(** ** Strings: [split], [join] and the slug *)

Module TextFacts.
Import JsText StringFacts.

Lemma startsWith_app (p s : string) : startsWith p (p +:+ s) = true.
Proof.
  induction p as [|a p IH]; [by destruct s |].
  rewrite append_cons. simpl. by rewrite bool_decide_eq_true_2, IH.
Qed.

Lemma startsWith_inv (p s : string) :
  startsWith p s = true → ∃ rest, s = p +:+ rest.
Proof.
  revert s. induction p as [|a p IH]; intros s.
  - intros _. by exists s.
  - destruct s as [|b s]; simpl; [done |].
    intros [Hab [rest ->]%IH]%andb_prop.
    apply bool_decide_eq_true in Hab as ->. by exists rest.
Qed.

Lemma length_append (s t : string) :
  String.length (s +:+ t) = String.length s + String.length t.
Proof.
  induction s as [|c s IH]; [done |].
  rewrite append_cons. simpl. by rewrite IH.
Qed.

Lemma split_go_skip (sep t s : string) :
  split_go sep (String.length t) (t +:+ s) = split_go sep 0 s.
Proof.
  induction t as [|c t IH]; [done |].
  rewrite append_cons. simpl. apply IH.
Qed.

Lemma split_go_not_nil (sep : string) (skip : nat) (s : string) :
  split_go sep skip s ≠ [].
Proof.
  revert skip. induction s as [|c s IH]; intros skip; simpl; [done |].
  destruct skip; [| apply IH].
  destruct (startsWith sep (String c s)); [done |].
  by destruct (split_go sep 0 s).
Qed.

Lemma join_cons_char (sep : string) (c : ascii) (piece : string)
    (pieces : list string) :
  join sep (String c piece :: pieces) = String c (join sep (piece :: pieces)).
Proof. by destruct pieces. Qed.

Lemma join_empty_head (sep : string) (pieces : list string) :
  pieces ≠ [] → join sep ("" :: pieces) = sep +:+ join sep pieces.
Proof. by destruct pieces. Qed.

(** Joining what [split] gives, with the same separator, gives the
    string back. *)
Lemma join_split (sep : string) :
  sep ≠ "" → ∀ s, join sep (split sep s) = s.
Proof.
  intros Hsep s. unfold split.
  remember (String.length s) as n eqn:Hn.
  revert s Hn. induction (lt_wf n) as [n _ IH]; intros s Hn.
  destruct s as [|c s]; [done |]. simpl.
  destruct (startsWith sep (String c s)) eqn:Hstart.
  - apply startsWith_inv in Hstart as [rest Hrest].
    destruct sep as [|a sep']; [done |].
    rewrite append_cons in Hrest. injection Hrest as -> ->.
    replace (String.length (String a sep') - 1) with (String.length sep')
      by (simpl; lia).
    rewrite split_go_skip.
    rewrite join_empty_head by apply split_go_not_nil.
    rewrite (IH (String.length rest)); [by rewrite append_cons | | done].
    subst n. simpl. rewrite length_append. lia.
  - specialize (IH (String.length s)).
    pose proof (split_go_not_nil sep 0 s) as Hne.
    destruct (split_go sep 0 s) as [|piece pieces] eqn:Hs; [done |].
    rewrite join_cons_char. f_equal.
    rewrite <- Hs. apply IH; [subst n; simpl; lia | done].
Qed.

(** What comes first in a string tells its first piece. *)
Lemma split_head (sep s : string) (piece : string) (pieces : list string) :
  sep ≠ "" → split sep s = piece :: pieces →
  s = piece ∨ s = piece +:+ sep +:+ join sep pieces.
Proof.
  intros Hsep Hs. pose proof (join_split sep Hsep s) as Hj.
  rewrite Hs in Hj. destruct pieces as [|p ps]; [by left | by right].
Qed.

Lemma lower_not_upper (c : ascii) : is_upper (lower c) = false.
Proof. by destruct c as [[] [] [] [] [] [] [] []]. Qed.

Lemma lower_lower (c : ascii) : lower (lower c) = lower c.
Proof. by destruct c as [[] [] [] [] [] [] [] []]. Qed.

Lemma toLowerCase_no_upper (s : string) : no_upper (toLowerCase s) = true.
Proof.
  induction s as [|c s IH]; simpl; [done |].
  by rewrite lower_not_upper, IH.
Qed.

Lemma toLowerCase_idem (s : string) :
  toLowerCase (toLowerCase s) = toLowerCase s.
Proof.
  induction s as [|c s IH]; simpl; [done |]. by rewrite lower_lower, IH.
Qed.

Lemma hyphenate_no_upper (after_lower : bool) (s : string) :
  no_upper s = true → hyphenate after_lower s = s.
Proof.
  revert after_lower. induction s as [|c s IH]; intros after_lower; simpl;
    [done |].
  intros [Hc Hs]%andb_prop. apply negb_true_iff in Hc. rewrite Hc. simpl.
  by rewrite IH.
Qed.

End TextFacts.

(** ** AtomLiveView: URI, slug and session state *)

Module SourceFacts.
Import JsText Utils LiveViewSource StringFacts TextFacts UtilsFacts.

Lemma no_percent_app (s t : string) :
  no_percent (s +:+ t) = no_percent s && no_percent t.
Proof.
  induction s as [|c s IH]; [done |].
  rewrite append_cons. simpl. by rewrite IH, andb_assoc.
Qed.

Lemma substring_from_app (p s : string) :
  substring_from (String.length p) (p +:+ s) = s.
Proof.
  induction p as [|c p IH]; [by destruct s |].
  rewrite append_cons. simpl. apply IH.
Qed.

Lemma split_own (rest : string) :
  split "://" (protocolName +:+ "://" +:+ rest)
  = protocolName :: split "://" rest.
Proof. reflexivity. Qed.

(** X25. The slug of a class name holds no capital letter from A to Z,
    taking the slug of a slug changes nothing, and the slug of
    [AtomLiveView] is the name of the protocol. *)
Theorem slug_is_lower_case (name : string) :
  no_upper (slug name) = true
  ∧ slug (slug name) = slug name
  ∧ slug "AtomLiveView" = protocolName.
Proof.
  split_and!.
  - apply toLowerCase_no_upper.
  - unfold slug at 1.
    rewrite hyphenate_no_upper by apply toLowerCase_no_upper.
    apply toLowerCase_idem.
  - reflexivity.
Qed.

Section opener.
Variable decodeURI : string → option string.
Variable is_file : string → bool.
Hypothesis decodeURI_plain :
  ∀ s, no_percent s = true → decodeURI s = Some s.

Lemma opener_own (rest : string) :
  no_percent rest = true →
  opener decodeURI is_file (protocolName +:+ "://" +:+ rest)
  = if startsWith "source:editor@" rest
    then createView is_file
           {| state_editorId := VString (substring_from 14 rest);
              state_filePath := VUndefined;
              state_offsets := None; state_title := VUndefined |}
    else createView is_file
           {| state_editorId := VUndefined;
              state_filePath := VString (strip_prefix_ci "source:file@" rest);
              state_offsets := None; state_title := VUndefined |}.
Proof.
  intros Hrest. unfold opener. rewrite split_own.
  rewrite bool_decide_eq_true_2 by done. cbn [negb].
  rewrite join_split by done. by rewrite decodeURI_plain.
Qed.

Lemma opener_editor_uri (id : string) :
  no_percent id = true →
  opener decodeURI is_file (protocolName +:+ "://source:editor@" +:+ id)
  = createView is_file
      {| state_editorId := VString id; state_filePath := VUndefined;
         state_offsets := None; state_title := VUndefined |}.
Proof.
  intros Hid.
  change (protocolName +:+ "://source:editor@" +:+ id)
    with (protocolName +:+ "://" +:+ ("source:editor@" +:+ id)).
  rewrite opener_own by (by rewrite no_percent_app, Hid).
  rewrite startsWith_app.
  change 14 with (String.length "source:editor@").
  by rewrite substring_from_app.
Qed.

Lemma createView_editor (id : string) (state : State) :
  id ≠ "" → state_editorId state = VString id →
  createView is_file state = Some state.
Proof.
  intros Hne Hid. unfold createView. rewrite Hid. simpl.
  by rewrite bool_decide_eq_false_2.
Qed.

(** X22. The URI of a view that has no file leads back to its editor:
    when the id of the editor is no object and, as a string, holds no
    per cent sign, the opener asks [createView] for a view of the editor
    with that id, and a view is made when the id is not empty. *)
Theorem editor_uri_round_trip (src : Source) :
  file src = None → primitive (editorId src) = true →
  no_percent (ToString (editorId src)) = true →
  let state := {| state_editorId := VString (ToString (editorId src));
                  state_filePath := VUndefined;
                  state_offsets := None; state_title := VUndefined |} in
  opener decodeURI is_file (getURI src) = createView is_file state
  ∧ (ToString (editorId src) ≠ "" →
     opener decodeURI is_file (getURI src) = Some state).
Proof.
  intros Hfile _ Hid state. unfold getURI. rewrite Hfile.
  rewrite opener_editor_uri by done. split; [done |].
  intros Hne. by apply (createView_editor (ToString (editorId src))).
Qed.

(** X23. The URI of a view of a file leads back to the file: when the
    path of the file is a string without a per cent sign, the opener
    asks [createView] for a view of that path, and a view is made
    exactly when the path is not empty and names a file that exists. *)
Theorem file_uri_round_trip (src : Source) (p : string) :
  file src = Some (VString p) → no_percent p = true →
  let state := {| state_editorId := VUndefined;
                  state_filePath := VString p;
                  state_offsets := None; state_title := VUndefined |} in
  opener decodeURI is_file (getURI src) = createView is_file state
  ∧ (opener decodeURI is_file (getURI src) = Some state ↔
     p ≠ "" ∧ is_file p = true).
Proof.
  intros Hfile Hp state. unfold getURI, getPath. rewrite Hfile.
  cbn [ToString].
  change (protocolName +:+ "://source:file@" +:+ p)
    with (protocolName +:+ "://" +:+ ("source:file@" +:+ p)).
  rewrite opener_own by (by rewrite no_percent_app, Hp).
  change (startsWith "source:editor@" ("source:file@" +:+ p)) with false.
  change (strip_prefix_ci "source:file@" ("source:file@" +:+ p)) with p.
  split; [done |].
  unfold createView. simpl.
  destruct (bool_decide (p = "")) eqn:He; simpl.
  - apply bool_decide_eq_true in He. split; [done | by intros [? _]].
  - apply bool_decide_eq_false in He.
    destruct (is_file p); split; try done. by intros [_ ?].
Qed.

(** X24. The opener answers for its own scheme only, and makes a view
    only for an editor id that is not empty or for a file that exists:
    when it gives a state, the URI begins with the name of the protocol
    and "://", and the state names either such an id or such a path. *)
Theorem opener_makes_views_of_its_scheme (uri : string) (state : State) :
  opener decodeURI is_file uri = Some state →
  (∃ rest, uri = protocolName +:+ "://" +:+ rest)
  ∧ ((∃ id, state_editorId state = VString id ∧ id ≠ ""
            ∧ state_filePath state = VUndefined)
     ∨ (∃ path, state_filePath state = VString path ∧ path ≠ ""
                ∧ is_file path = true
                ∧ state_editorId state = VUndefined)).
Proof.
  unfold opener. destruct (split "://" uri) as [|protocol path] eqn:Hs;
    [done |].
  case_bool_decide as Hp; [| done]. subst protocol. cbn [negb].
  destruct (decodeURI (join "://" path)) as [decoded|] eqn:Hd; [| done].
  intros Hmade.
  assert ((∃ id, state_editorId state = VString id ∧ id ≠ ""
                 ∧ state_filePath state = VUndefined)
          ∨ (∃ path', state_filePath state = VString path' ∧ path' ≠ ""
                      ∧ is_file path' = true
                      ∧ state_editorId state = VUndefined)) as Hstate.
  { destruct (startsWith "source:editor@" decoded).
    - remember (substring_from 14 decoded) as idstr.
      unfold createView in Hmade. simpl in Hmade.
      destruct (bool_decide (idstr = "")) eqn:He; simpl in Hmade; [done |].
      apply bool_decide_eq_false in He. simplify_eq. left. eauto.
    - remember (strip_prefix_ci "source:file@" decoded) as stripped.
      unfold createView in Hmade. simpl in Hmade.
      destruct (bool_decide (stripped = "")) eqn:He; simpl in Hmade;
        [done |].
      apply bool_decide_eq_false in He.
      destruct (is_file stripped) eqn:Hf; [| done].
      simplify_eq. right. eauto. }
  split; [| done].
  destruct (split_head "://" uri _ _ ltac:(done) Hs) as [-> | ->].
  - exfalso. assert (path = []) as ->.
    { change (split "://" protocolName) with [protocolName] in Hs.
      by simplify_eq. }
    simpl in Hd. rewrite decodeURI_plain in Hd by done.
    simplify_eq; unfold createView in *; by simpl in *.
  - eauto.
Qed.

Lemma opener_uriForEditor (e : TextEditor) :
  opener decodeURI is_file (uriForEditor e)
  = Some {| state_editorId := VString (ToString (VNumber (editor_id e)));
            state_filePath := VUndefined;
            state_offsets := None; state_title := VUndefined |}.
Proof.
  unfold uriForEditor.
  rewrite opener_editor_uri by apply number_string_no_percent.
  apply (createView_editor (ToString (VNumber (editor_id e))));
    [apply number_string_not_empty | done].
Qed.

Lemma editorForId_member (e : TextEditor) (editors : list TextEditor) :
  e ∈ editors →
  ∃ e', editorForId (VString (ToString (VNumber (editor_id e)))) editors
        = Some e'
        ∧ editor_id e' = editor_id e
        ∧ ((∀ e1, e1 ∈ editors → editor_id e1 = editor_id e → e1 = e) →
           e' = e).
Proof.
  intros Hin.
  destruct (editorForId (VString (ToString (VNumber (editor_id e)))) editors)
    as [e'|] eqn:Hfind.
  - exists e'. split; [done |].
    apply editorForId_Some in Hfind as (l1 & l2 & -> & He' & _).
    apply number_string_inj in He'. split; [done |].
    intros Huniq. apply Huniq; [set_solver | done].
  - exfalso. rewrite editorForId_None in Hfind.
    by apply (Hfind e Hin).
Qed.

(** X26. The URI made for an editor of the workspace always opens a
    view, and that view finds an editor of that id again: the opener
    gives a state whose editor id is the string of the editor's number,
    [editorForId] of it gives an editor with the same number, and it
    gives the editor itself when no other editor has that number. *)
Theorem editor_uri_finds_editor (e : TextEditor) (editors : list TextEditor) :
  e ∈ editors →
  ∃ state e',
    opener decodeURI is_file (uriForEditor e) = Some state
    ∧ state_editorId state = VString (ToString (VNumber (editor_id e)))
    ∧ editorForId (state_editorId state) editors = Some e'
    ∧ editor_id e' = editor_id e
    ∧ ((∀ e1, e1 ∈ editors → editor_id e1 = editor_id e → e1 = e) →
       e' = e).
Proof.
  intros Hin.
  destruct (editorForId_member e editors Hin) as (e' & Hfind & Hid & Huniq).
  eexists _, e'. split; [apply opener_uriForEditor |]. by simpl.
Qed.

(** X28. A view opened for an editor of the workspace keeps the URI it
    was opened with: once the packages are loaded, the view made from
    [uriForEditor(editor)] has an editor of that number and no file, its
    URI is again [uriForEditor(editor)], its path and title are those of
    the editor, and it has announced its title and asked for a render,
    which is under way when the view is visible and queued when it is
    not. *)
Theorem editor_view_keeps_its_uri (new_File : Value → Value)
    (basename : string → string) (e : TextEditor)
    (editors : list TextEditor) (panes : list AtomLiveView.Pane)
    (id : nat) :
  e ∈ editors →
  ∃ state e',
    opener decodeURI is_file (uriForEditor e) = Some state
    ∧ let new := (AtomLiveView.constructor id (state_offsets state),
                  source_of_state state) in
      let view := loaded new_File editors panes new in
      editor view.2 = Some e' ∧ editor_id e' = editor_id e
      ∧ file view.2 = None
      ∧ getURI view.2 = uriForEditor e
      ∧ getPath view.2 = editor_path e'
      ∧ getTitle basename view.2
        = Some (VString (editor_title e' +:+ " preview"))
      ∧ AtomLiveView.renderState view.1
        = (if AtomLiveView.getVisible panes new.1 then "rendering"
           else "pending")
      ∧ AtomLiveView.emitted view.1
        = [if AtomLiveView.getVisible panes new.1 then "did-render-started"
           else "did-queue-render"; "did-change-title"].
Proof.
  intros Hin.
  destruct (editorForId_member e editors Hin) as (e' & Hfind & Hid & _).
  eexists _, e'. split; [apply opener_uriForEditor |].
  intros new view. subst view new. unfold loaded.
  cbn [snd fst source_of_state editorId state_editorId state_offsets
       state_filePath state_title].
  assert (truthy (VString (ToString (VNumber (editor_id e)))) = true) as ->.
  { simpl. rewrite bool_decide_eq_false_2; [done |].
    apply number_string_not_empty. }
  rewrite Hfind. cbn [snd fst]. split_and!; try done.
  - unfold AtomLiveView.handleRender. simpl.
    by destruct (AtomLiveView.getVisible panes _).
  - unfold AtomLiveView.handleRender. simpl.
    by destruct (AtomLiveView.getVisible panes _).
Qed.

End opener.

Lemma editor_uri_round_trip_witness :
  opener SourceExamples.decodeURI_plain SourceExamples.is_file
    (getURI SourceExamples.of_editor)
  = Some {| state_editorId := VString "12"; state_filePath := VUndefined;
            state_offsets := None; state_title := VUndefined |}.
Proof.
  assert (∀ s, no_percent s = true →
               SourceExamples.decodeURI_plain s = Some s) as Hdec.
  { intros s Hs. unfold SourceExamples.decodeURI_plain. by rewrite Hs. }
  assert (ToString (editorId SourceExamples.of_editor) ≠ "") as Hne by done.
  exact (proj2 (editor_uri_round_trip SourceExamples.decodeURI_plain
                  SourceExamples.is_file Hdec SourceExamples.of_editor
                  eq_refl eq_refl eq_refl) Hne).
Defined.

Lemma file_uri_round_trip_witness :
  opener SourceExamples.decodeURI_plain SourceExamples.is_file
    (getURI SourceExamples.of_file)
  = Some {| state_editorId := VUndefined;
            state_filePath := VString "/notes/a.md";
            state_offsets := None; state_title := VUndefined |}.
Proof.
  assert (∀ s, no_percent s = true →
               SourceExamples.decodeURI_plain s = Some s) as Hdec.
  { intros s Hs. unfold SourceExamples.decodeURI_plain. by rewrite Hs. }
  destruct (file_uri_round_trip SourceExamples.decodeURI_plain
              SourceExamples.is_file Hdec SourceExamples.of_file
              "/notes/a.md" eq_refl eq_refl) as [_ H].
  apply H. by split.
Defined.

Lemma opener_makes_views_of_its_scheme_witness :
  ∃ rest, "atom-live-view://source:editor@12"
          = protocolName +:+ "://" +:+ rest.
Proof.
  assert (∀ s, no_percent s = true →
               SourceExamples.decodeURI_plain s = Some s) as Hdec.
  { intros s Hs. unfold SourceExamples.decodeURI_plain. by rewrite Hs. }
  exact (proj1 (opener_makes_views_of_its_scheme
                  SourceExamples.decodeURI_plain SourceExamples.is_file Hdec
                  "atom-live-view://source:editor@12" _ eq_refl)).
Defined.

Lemma editor_uri_finds_editor_witness :
  ∃ state e',
    opener SourceExamples.decodeURI_plain SourceExamples.is_file
      (uriForEditor SourceExamples.an_editor) = Some state
    ∧ editorForId (state_editorId state) [SourceExamples.an_editor] = Some e'.
Proof.
  assert (∀ s, no_percent s = true →
               SourceExamples.decodeURI_plain s = Some s) as Hdec.
  { intros s Hs. unfold SourceExamples.decodeURI_plain. by rewrite Hs. }
  assert (SourceExamples.an_editor ∈ [SourceExamples.an_editor]) as Hin
    by set_solver.
  destruct (editor_uri_finds_editor SourceExamples.decodeURI_plain
              SourceExamples.is_file Hdec SourceExamples.an_editor
              [SourceExamples.an_editor] Hin)
    as (state & e' & Hopen & _ & Hfind & _).
  by exists state, e'.
Defined.

Lemma editor_view_keeps_its_uri_witness :
  ∃ state e',
    opener SourceExamples.decodeURI_plain SourceExamples.is_file
      (uriForEditor SourceExamples.an_editor) = Some state
    ∧ editor (loaded (λ p, p) [SourceExamples.an_editor] ViewExamples.shown
                (AtomLiveView.constructor 3 (state_offsets state),
                 source_of_state state)).2 = Some e'.
Proof.
  assert (∀ s, no_percent s = true →
               SourceExamples.decodeURI_plain s = Some s) as Hdec.
  { intros s Hs. unfold SourceExamples.decodeURI_plain. by rewrite Hs. }
  assert (SourceExamples.an_editor ∈ [SourceExamples.an_editor]) as Hin
    by set_solver.
  destruct (editor_view_keeps_its_uri SourceExamples.decodeURI_plain
              SourceExamples.is_file Hdec (λ p, p) (λ s, s)
              SourceExamples.an_editor [SourceExamples.an_editor]
              ViewExamples.shown 3 Hin)
    as (state & e' & Hopen & Hed & _).
  by exists state, e'.
Defined.

(** *** Saving and restoring a view *)

Lemma getTitle_truthy (basename : string → string) (src : Source)
    (title : Value) :
  getTitle basename src = Some title → truthy title = true.
Proof.
  unfold getTitle.
  assert (∀ s, truthy (VString (s +:+ " preview")) = true) as Hs.
  { intros s. simpl. rewrite bool_decide_eq_false_2; [done |].
    by apply append_not_empty_r. }
  destruct (match file src with Some _ => _ | None => _ end).
  - destruct (getPath src); try done. intros [= <-]. apply Hs.
  - destruct (editor src); [intros [= <-]; apply Hs |].
    intros [= <-]. by destruct (truthy (cachedTitle src)) eqn:Ht.
Qed.

(** X27. [serialize] gives a result when the path of the view's file,
    if there is a file, is a string or falsy.  A view that is serialized
    and deserialized again keeps its editor id, has the path of its
    source as its file path, has the scroll position as the offsets to
    restore, and shows the same title as before while neither file nor
    editor is attached; when the view had no file, its URI is the same
    too. *)
Theorem session_round_trip (name : string) (basename : string → string)
    (id : nat) (v : AtomLiveView.View) (src : Source) :
  (∀ p, file src = Some p → truthy p = true → ∃ path, p = VString path) →
  ∃ saved,
    serialize name basename v src = Some saved
    ∧ deserializer saved = name
    ∧ let restored := deserialize id saved in
      editorId restored.2 = editorId src
      ∧ getPath restored.2 = getPath src
      ∧ getTitle basename restored.2 = getTitle basename src
      ∧ AtomLiveView.offsets restored.1
        = Some [AtomLiveView.scrollLeft v; AtomLiveView.scrollTop v]
      ∧ AtomLiveView.renderState restored.1 = ""
      ∧ (file src = None → getURI restored.2 = getURI src).
Proof.
  intros Hpath.
  assert (∃ title, getTitle basename src = Some title) as [title Htitle].
  { unfold getTitle, getPath. destruct (file src) as [p|] eqn:Hfile.
    - destruct (truthy p) eqn:Hp.
      + destruct (Hpath p eq_refl Hp) as [path ->]. eauto.
      + destruct (editor src); eauto.
    - destruct (editor src); eauto. }
  unfold serialize. rewrite Htitle. eexists. split; [done |].
  split; [done |]. cbv zeta. split_and!; try done.
  - unfold getTitle. simpl.
    by rewrite (getTitle_truthy _ _ _ Htitle).
  - intros Hfile. unfold getURI. simpl. by rewrite Hfile.
Qed.

Lemma session_round_trip_witness :
  ∃ saved,
    serialize "AtomLiveView" (λ s, s) ViewExamples.view
      SourceExamples.of_file = Some saved
    ∧ getPath (deserialize 4 saved).2 = VString "/notes/a.md".
Proof.
  assert (∀ p, file SourceExamples.of_file = Some p → truthy p = true →
                ∃ path, p = VString path) as Hpath.
  { intros p [= <-] _. by eexists. }
  destruct (session_round_trip "AtomLiveView" (λ s, s) 4 ViewExamples.view
              SourceExamples.of_file Hpath)
    as (saved & Hsaved & _ & _ & Hp & _).
  exists saved. split; [exact Hsaved | exact Hp].
Defined.

(** *** From the editor to the file *)

Lemma serialize_Some (name : string) (basename : string → string)
    (v : AtomLiveView.View) (src : Source) :
  (∀ p, file src = Some p → truthy p = true → ∃ path, p = VString path) →
  ∃ title,
    getTitle basename src = Some title
    ∧ serialize name basename v src
      = Some {| deserializer := name;
                params :=
                  {| state_editorId := editorId src;
                     state_filePath := getPath src;
                     state_offsets :=
                       Some [AtomLiveView.scrollLeft v;
                             AtomLiveView.scrollTop v];
                     state_title := title |} |}.
Proof.
  intros Hpath.
  assert (∃ title, getTitle basename src = Some title) as [title Htitle].
  { unfold getTitle, getPath. destruct (file src) as [p|] eqn:Hfile.
    - destruct (truthy p) eqn:Hp.
      + destruct (Hpath p eq_refl Hp) as [path ->]. eauto.
      + destruct (editor src); eauto.
    - destruct (editor src); eauto. }
  exists title. split; [done |]. unfold serialize. by rewrite Htitle.
Qed.

(** X29. A restored view whose editor is gone goes on with the file:
    when a view is serialized and deserialized, and at load time no
    editor of the workspace has its editor id, the view watches the file
    of the path that the view had when it was saved, has no editor, and
    its URI is the URI of that file. *)
Theorem restored_view_falls_back_to_file (new_File : Value → Value)
    (name : string) (basename : string → string)
    (editors : list TextEditor) (panes : list AtomLiveView.Pane)
    (id : nat) (v : AtomLiveView.View) (src : Source) :
  (∀ p, file src = Some p → truthy p = true → ∃ path, p = VString path) →
  primitive (editorId src) = true →
  (∀ e, e ∈ editors →
     ToString (VNumber (editor_id e)) ≠ ToString (editorId src)) →
  ∃ saved,
    serialize name basename v src = Some saved
    ∧ let view := loaded new_File editors panes (deserialize id saved) in
      file view.2 = Some (new_File (getPath src))
      ∧ editor view.2 = None
      ∧ editorId view.2 = editorId src
      ∧ getPath view.2 = new_File (getPath src)
      ∧ getURI view.2
        = protocolName +:+ "://source:file@"
          +:+ ToString (new_File (getPath src)).
Proof.
  intros Hpath _ Hnone.
  destruct (serialize_Some name basename v src Hpath)
    as (title & _ & Hsaved).
  eexists. split; [exact Hsaved |].
  apply editorForId_None in Hnone.
  intros view. subst view. unfold loaded, deserialize.
  cbn [snd fst params source_of_state editorId filePath state_editorId
       state_filePath].
  rewrite Hnone. by destruct (truthy (editorId src)).
Qed.

Lemma restored_view_falls_back_to_file_witness :
  ∃ saved,
    serialize "AtomLiveView" (λ s, s) ViewExamples.view
      SourceExamples.of_editor = Some saved
    ∧ getURI (loaded (λ p, p) [] ViewExamples.hidden
                (deserialize 4 saved)).2
      = "atom-live-view://source:file@/notes/a.md".
Proof.
  assert (∀ p, file SourceExamples.of_editor = Some p → truthy p = true →
                ∃ path, p = VString path) as Hpath by done.
  assert (∀ e : TextEditor, e ∈ [] →
            ToString (VNumber (editor_id e))
            ≠ ToString (editorId SourceExamples.of_editor)) as Hnone.
  { intros e He. by apply elem_of_nil in He. }
  destruct (restored_view_falls_back_to_file (λ p, p) "AtomLiveView"
              (λ s, s) [] ViewExamples.hidden 4 ViewExamples.view
              SourceExamples.of_editor Hpath eq_refl Hnone)
    as (saved & Hsaved & _ & _ & _ & _ & Huri).
  exists saved. split; [exact Hsaved | exact Huri].
Defined.

(** X30. When the editor of a view is destroyed the view goes on with
    the editor's file: it watches the file of the editor's path and
    announces its title; when the file reports the path it was made
    with, the path of the view is as before, and when that path is a
    string that is not empty, the URI becomes the URI of the file and
    the title the name of the file. *)
Theorem destroyed_editor_leaves_file (new_File : Value → Value)
    (basename : string → string) (panes : list AtomLiveView.Pane)
    (view : AtomLiveView.View * Source) (e : TextEditor) :
  editor view.2 = Some e → file view.2 = None →
  let view' := onEditorDestroyed new_File panes view in
  file view'.2 = Some (new_File (editor_path e))
  ∧ (AtomLiveView.emitter view.1 = true →
     "did-change-title" ∈ AtomLiveView.emitted view'.1)
  ∧ (new_File (editor_path e) = editor_path e →
     getPath view'.2 = getPath view.2
     ∧ ∀ path, editor_path e = VString path → path ≠ "" →
         getURI view'.2 = protocolName +:+ "://source:file@" +:+ path
         ∧ getTitle basename view'.2
           = Some (VString (basename path +:+ " preview"))).
Proof.
  intros Hed Hfile view'. subst view'.
  unfold onEditorDestroyed, watchFile. cbn [snd fst file].
  assert (getPath view.2 = editor_path e) as Hpath.
  { unfold getPath. by rewrite Hfile, Hed. }
  rewrite Hpath. split_and!; [done | |].
  - intros Hem.
    assert (∀ v, "did-change-title" ∈ AtomLiveView.emitted v →
                 "did-change-title"
                 ∈ AtomLiveView.emitted (AtomLiveView.handleRender panes v))
      as Hkeep.
    { intros v Hv. unfold AtomLiveView.handleRender.
      repeat (match goal with
              | |- context [if ?c then _ else _] => destruct c
              end); unfold AtomLiveView.emit; simpl;
        try (destruct (AtomLiveView.emitter v)); simpl; set_solver. }
    apply Hkeep. unfold AtomLiveView.emit. rewrite Hem. simpl. set_solver.
  - intros Hsame. unfold getPath at 1. cbn [file]. split; [done |].
    intros path Hp Hne. unfold getURI, getTitle, getPath. cbn [file].
    rewrite Hsame, Hp. simpl. by rewrite bool_decide_eq_false_2.
Qed.

Lemma destroyed_editor_leaves_file_witness :
  getURI (onEditorDestroyed (λ p, p) ViewExamples.shown
            (ViewExamples.view, SourceExamples.of_editor)).2
  = "atom-live-view://source:file@/notes/a.md".
Proof.
  destruct (destroyed_editor_leaves_file (λ p, p) (λ s, s)
              ViewExamples.shown
              (ViewExamples.view, SourceExamples.of_editor)
              SourceExamples.an_editor eq_refl eq_refl)
    as (_ & _ & H).
  destruct (H eq_refl) as [_ Hfile].
  exact (proj1 (Hfile "/notes/a.md" eq_refl ltac:(done))).
Defined.

End SourceFacts.
